(** * banana-slides: the [convert] command of [banana_slides/cli.py]

    A shallow embedding of the image-to-editable-PPTX orchestration code
    ([collect_image_paths], [create_service_config], [convert]) and the
    properties the specification states about it.

    Python side effects are kept explicit: every function of the CLI is a
    computation in a writer-and-exception monad [M] whose trace records, in
    program order, what was printed, logged, assigned and called.  The
    collaborators that live outside [cli.py] (the file system, the provider
    factories, the analysis service, the exporter) are fields of a [World]
    record. *)

From Stdlib Require Import ZArith List String Ascii Floats Uint63 Sorted Lia Bool.
From stdpp Require Import base option list strings gmap.

#[local] Open Scope Z_scope.
#[local] Set Warnings "-inexact-float".

(* ===================================================================== *)
(** * Python prelude *)
(* ===================================================================== *)

(** Exceptions the modelled code can meet.  [Failure] stands for any
    exception raised by a collaborator outside [cli.py]. *)
Inductive exn : Type :=
  | ZeroDivisionError
  | OverflowError
  | AttributeError
  | KeyError
  | ValueError
  | Failure (what : string).

Inductive outcome (A : Type) : Type :=
  | Return (a : A)
  | Raise (e : exn).
Arguments Return {A} a.
Arguments Raise {A} e.

(** ** Numbers *)

(** [min_width] and [min_height] start as [float("inf")] and then hold
    Python ints. *)
Inductive pynum : Type :=
  | PyInf
  | PyInt (z : Z).

Definition py_lt (a b : pynum) : bool :=
  match a, b with
  | PyInt x, PyInt y => x <? y
  | PyInt _, PyInf => true
  | PyInf, _ => false
  end.

(** [min(a, b)]: the first argument unless the second is strictly smaller. *)
Definition py_min (a b : pynum) : pynum := if py_lt b a then b else a.

(** Conversion of a Python int to a binary64 float; exact below 2^53, which
    is where pixel counts live. *)
Definition float_of_int (z : Z) : float :=
  if 0 <=? z then PrimFloat.of_uint63 (Uint63.of_Z z)
  else PrimFloat.opp (PrimFloat.of_uint63 (Uint63.of_Z (- z))).

(** ** Strings *)

Definition lower_ascii (c : ascii) : ascii :=
  let n := nat_of_ascii c in
  if ((65 <=? n) && (n <=? 90))%nat then ascii_of_nat (n + 32) else c.

(** [str.lower()] on the ASCII range; other bytes are left alone (no
    non-ASCII character lowers to a letter of an image extension). *)
Fixpoint lower (s : string) : string :=
  match s with
  | EmptyString => EmptyString
  | String c s' => String (lower_ascii c) (lower s')
  end.

(** [s.rfind(c)]: index of the last occurrence, [-1] when there is none. *)
Fixpoint rfind (c : ascii) (s : string) : Z :=
  match s with
  | EmptyString => -1
  | String a s' =>
      let i := rfind c s' in
      if 0 <=? i then i + 1
      else if Ascii.eqb a c then 0 else -1
  end.

Definition slen (s : string) : Z := Z.of_nat (String.length s).

(** [s[i:]] and [s[:i]] for [0 <= i]. *)
Definition str_from (i : Z) (s : string) : string :=
  substring (Z.to_nat i) (String.length s - Z.to_nat i) s.
Definition str_upto (i : Z) (s : string) : string :=
  substring 0 (Z.to_nat i) s.

(** [s.split(c)] *)
Fixpoint split_on (c : ascii) (s : string) : list string :=
  match s with
  | EmptyString => [EmptyString]
  | String a s' =>
      if Ascii.eqb a c then EmptyString :: split_on c s'
      else match split_on c s' with
           | [] => [String a EmptyString]
           | hd :: tl => String a hd :: tl
           end
  end.

(** ** Sorting: [sorted(xs)] is stable and only uses [<]. *)

Section Sorted.
Context {A : Type} (ltb : A -> A -> bool).

Fixpoint sorted_insert (x : A) (l : list A) : list A :=
  match l with
  | [] => [x]
  | y :: l' => if ltb y x then y :: sorted_insert x l' else x :: y :: l'
  end.

Definition sorted (l : list A) : list A := foldr sorted_insert [] l.

End Sorted.

(* ===================================================================== *)
(** * pathlib *)
(* ===================================================================== *)

(** A pure POSIX path: whether it is anchored at the root, and its
    components. *)
Record Path : Type := MkPath { absolute : bool; parts : list string }.

Definition keep_part (s : string) : bool :=
  negb (String.eqb s "") && negb (String.eqb s ".").

(** [Path(s)]: empty and ["."] components are dropped. *)
Definition path_of (s : string) : Path :=
  {| absolute := match s with String "/" _ => true | _ => false end;
     parts := List.filter keep_part (split_on "/" s) |}.

(** [str(path)] *)
Definition str (p : Path) : string :=
  match parts p with
  | [] => if absolute p then "/" else "."
  | _ => (if absolute p then "/" else "") +:+ String.concat "/" (parts p)
  end.

(** [path.name]: the last component, [''] when there is none. *)
Definition name (p : Path) : string := List.last (parts p) "".

Definition has_suffix (nm : string) : bool :=
  let i := rfind "." nm in (0 <? i) && (i <? slen nm - 1).

(** [path.suffix]: from the last dot of the name, unless that dot is the
    first or the last character. *)
Definition suffix (p : Path) : string :=
  let nm := name p in
  if has_suffix nm then str_from (rfind "." nm) nm else "".

(** [path.stem]: the name without its suffix. *)
Definition stem (p : Path) : string :=
  let nm := name p in
  if has_suffix nm then str_upto (rfind "." nm) nm else nm.

(** [path / child] for a single component. *)
Definition joinpath (p : Path) (child : string) : Path :=
  {| absolute := absolute p; parts := parts p ++ [child] |}.

(** Paths are ordered by their component lists, components by code point. *)
Definition cparts (p : Path) : list string :=
  (if absolute p then ["/"] else []) ++ parts p.

Fixpoint parts_compare (l1 l2 : list string) : comparison :=
  match l1, l2 with
  | [], [] => Eq
  | [], _ :: _ => Lt
  | _ :: _, [] => Gt
  | a :: l1', b :: l2' =>
      match String.compare a b with
      | Eq => parts_compare l1' l2'
      | c => c
      end
  end.

Definition path_ltb (p q : Path) : bool :=
  match parts_compare (cparts p) (cparts q) with Lt => true | _ => false end.

(* ===================================================================== *)
(** * Data model *)
(* ===================================================================== *)

(** Modelled from the spec: [EditableImage] (section 3: source width and
    height in pixels, the inpainted background, the recovered components).
    The class is declared in [services/image_editability], which is not
    part of the sources at hand; [cli.py] only reads [width] and [height],
    the rest is kept opaque. *)
Record EditableImage : Type := {
  width : Z;
  height : Z;
  payload : string
}.

Inductive InpaintProvider : Type :=
  | GenerativeEditProvider
  | BaiduInpaintProvider.

(** Modelled from the spec: [InpaintProviderRegistry] (section 3 and 4.1: a
    default provider plus optional overrides; [register_default(provider)]
    sets the fallback of last resort).  The class is declared in
    [services/image_editability]. *)
Record InpaintProviderRegistry : Type := {
  default_provider : option InpaintProvider;
  overrides : list (string * InpaintProvider)
}.

Definition empty_registry : InpaintProviderRegistry :=
  {| default_provider := None; overrides := [] |}.

Definition register_default (p : InpaintProvider)
    (r : InpaintProviderRegistry) : InpaintProviderRegistry :=
  {| default_provider := Some p; overrides := overrides r |}.

(** Modelled from the spec: [ServiceConfig] (section 3: extractor strategy,
    inpaint strategy, recursion depth limit, inpaint registry).  The class
    and its [from_defaults] constructor are declared in
    [services/image_editability]; the constructor stores its keyword
    arguments, and the registry it starts with is a parameter of the
    world. *)
Record ServiceConfig : Type := {
  use_hybrid_extractor : bool;
  use_hybrid_inpaint : bool;
  max_depth : Z;
  inpaint_registry : InpaintProviderRegistry
}.

Definition set_inpaint_registry (r : InpaintProviderRegistry)
    (c : ServiceConfig) : ServiceConfig :=
  {| use_hybrid_extractor := use_hybrid_extractor c;
     use_hybrid_inpaint := use_hybrid_inpaint c;
     max_depth := max_depth c;
     inpaint_registry := r |}.

(** Modelled from the spec: the Decomposer's recursion guard (section 4.2,
    step 3: "if depth + 1 < maxDepth, recursively invoke ...").  The
    Decomposer is not part of the sources at hand. *)
Definition recurses_below (depth maxDepth : Z) : bool := depth + 1 <? maxDepth.

Inductive TextAttributeExtractor : Type := CaptionModelExtractor.

(** Keyword arguments of
    [ExportService.create_editable_pptx_with_recursive_analysis]. *)
Record ExportArgs : Type := {
  editable_images : list (option EditableImage);
  output_file : string;
  slide_width_pixels : Z;
  slide_height_pixels : Z;
  text_attribute_extractor : option TextAttributeExtractor
}.

(* ===================================================================== *)
(** * Effects *)
(* ===================================================================== *)

Inductive level : Type := INFO | WARNING | ERROR.

(** What is printed or logged, one constructor per format string. *)
Inductive message : Type :=
  | MsgBanner
  | MsgNoValidImages
  | MsgFound (n : nat)
  | MsgStep1
  | MsgStep2Extract
  | MsgStep2Skip
  | MsgStep3
  | MsgOutputExists (renamed : Path)
  | MsgSuccess (out : Path)
  | MsgConversionFailed (e : exn)
  | MsgSkippingNonImage (p : Path)
  | MsgPathDoesNotExist (p : Path)
  | MsgConfig (extractor inpaint : string)
  | MsgUsingGenerative
  | MsgUsingBaidu
  | MsgBaiduUnavailable
  | MsgFailedToAnalyze (path : string) (e : exn)
  | MsgFailedTextExtractor (e : exn)
  | MsgNot16x9 (image_no : nat) (ratio : float).

Inductive effect : Type :=
  | Rprint (m : message)                 (* rich console output *)
  | Log (lvl : level) (m : message)      (* logger.info / warning / error *)
  | NewServiceConfig                     (* ServiceConfig.from_defaults(...) *)
  | SetConfigAttr (field : string)       (* config.<field> = ... *)
  | NewService (cfg : ServiceConfig)     (* ImageEditabilityService(cfg) *)
  | Submit (idx : nat) (path : string)   (* executor.submit(..., path) *)
  | SetItem (idx : nat)                  (* results[idx] = ... *)
  | ProgressUpdate                       (* progress.update(task, advance=1) *)
  | Export (args : ExportArgs).          (* ExportService.create_editable_... *)

(** A computation: the effects it performed, in order, and how it ended. *)
Definition M (A : Type) : Type := (list effect * outcome A)%type.

#[global] Instance M_ret : MRet M := λ A a, ([], Return a).

#[global] Instance M_bind : MBind M := λ A B f m,
  match m with
  | (t, Return a) => let '(t', r) := f a in (t ++ t', r)
  | (t, Raise e) => (t, Raise e)
  end.

Definition raise {A : Type} (e : exn) : M A := ([], Raise e).
Definition emit (ev : effect) : M unit := ([ev], Return tt).
Definition rprint (m : message) : M unit := emit (Rprint m).
Definition log (lvl : level) (m : message) : M unit := emit (Log lvl m).
Definition lift {A : Type} (o : outcome A) : M A := ([], o).

(** [try: body  except Exception as e: handler e] *)
Definition try_except {A : Type} (body : M A) (handler : exn -> M A) : M A :=
  match body with
  | (t, Return a) => (t, Return a)
  | (t, Raise e) => let '(t', r) := handler e in (t ++ t', r)
  end.

Definition trace {A : Type} (m : M A) : list effect := m.1.
Definition result {A : Type} (m : M A) : outcome A := m.2.

(** [for x in xs: s = body s x] *)
Fixpoint for_each {A S : Type} (xs : list A) (body : S -> A -> M S) (s : S)
    : M S :=
  match xs with
  | [] => mret s
  | x :: xs' => s' ← body s x; for_each xs' body s'
  end.

(* ===================================================================== *)
(** * The world outside [cli.py] *)
(* ===================================================================== *)

Record World : Type := {
  (* the file system, as pathlib sees it *)
  is_file : Path -> bool;
  is_dir : Path -> bool;
  exists_ : Path -> bool;
  listdir : Path -> list string;
  resolve : Path -> Path;
  (* InpaintProviderFactory *)
  create_generative_edit_provider : InpaintProvider;
  create_baidu_inpaint_provider : option InpaintProvider;
  (* the registry ServiceConfig.from_defaults installs *)
  default_inpaint_registry : bool -> InpaintProviderRegistry;
  (* ImageEditabilityService(config).make_image_editable(path) *)
  make_image_editable : ServiceConfig -> string -> outcome EditableImage;
  (* TextAttributeExtractorFactory.create_caption_model_extractor() *)
  create_caption_model_extractor : outcome TextAttributeExtractor;
  (* ExportService.create_editable_pptx_with_recursive_analysis(...) *)
  create_editable_pptx_with_recursive_analysis : ExportArgs -> outcome unit
}.

(** [path.iterdir()]: the children, in whatever order the OS lists them. *)
Definition iterdir (w : World) (p : Path) : list Path :=
  List.map (joinpath p) (listdir w p).

(** [path.with_name(n)]; a path without a name raises [ValueError]. *)
Definition with_name (p : Path) (n : string) : M Path :=
  if String.eqb (name p) "" then raise ValueError
  else mret {| absolute := absolute p; parts := removelast (parts p) ++ [n] |}.

(* ===================================================================== *)
(** * [cli.py] *)
(* ===================================================================== *)

(** ** [collect_image_paths] *)

Definition image_extensions : gset string :=
  {[ ".png"; ".jpg"; ".jpeg"; ".webp"; ".bmp" ]}.

(** [p.suffix.lower() in image_extensions] *)
Definition has_image_suffix (p : Path) : bool :=
  bool_decide (lower (suffix p) ∈ image_extensions).

(** The inner loop over a directory: [for file in sorted(path.iterdir())]. *)
Definition collect_dir (w : World) (dir : Path) (result : list string)
    : M (list string) :=
  for_each (sorted path_ltb (iterdir w dir))
    (λ result file,
       if has_image_suffix file
       then mret (result ++ [str (resolve w file)])
       else mret result)
    result.

(** The body of [for path_str in paths]. *)
Definition collect_arg (w : World) (result : list string) (path_str : string)
    : M (list string) :=
  let path := path_of path_str in
  if is_file w path then
    if has_image_suffix path
    then mret (result ++ [str (resolve w path)])
    else log WARNING (MsgSkippingNonImage path);; mret result
  else if is_dir w path then
    collect_dir w path result
  else
    log WARNING (MsgPathDoesNotExist path);; mret result.

Definition collect_image_paths (w : World) (paths : list string)
    : M (list string) :=
  for_each paths (collect_arg w) [].

(** ** [create_service_config] *)

(** [ServiceConfig.from_defaults(use_hybrid_extractor=..,
    use_hybrid_inpaint=.., max_depth=..)] *)
Definition from_defaults (w : World) (hybrid_extractor hybrid_inpaint : bool)
    (depth : Z) : M ServiceConfig :=
  emit NewServiceConfig;;
  mret {| use_hybrid_extractor := hybrid_extractor;
          use_hybrid_inpaint := hybrid_inpaint;
          max_depth := depth;
          inpaint_registry := default_inpaint_registry w hybrid_inpaint |}.

(** The registry built under [if inpaint_method != "hybrid"]. *)
Definition build_inpaint_registry (w : World) (inpaint_method : string)
    : M InpaintProviderRegistry :=
  let inpaint_registry := empty_registry in
  if String.eqb inpaint_method "generative" then
    let provider := create_generative_edit_provider w in
    let inpaint_registry := register_default provider inpaint_registry in
    log INFO MsgUsingGenerative;;
    mret inpaint_registry
  else if String.eqb inpaint_method "baidu" then
    match create_baidu_inpaint_provider w with
    | Some provider =>
        let inpaint_registry := register_default provider inpaint_registry in
        log INFO MsgUsingBaidu;;
        mret inpaint_registry
    | None =>
        log WARNING MsgBaiduUnavailable;;
        let provider := create_generative_edit_provider w in
        mret (register_default provider inpaint_registry)
    end
  else mret inpaint_registry.

Definition create_service_config (w : World)
    (extractor_method inpaint_method : string) : M ServiceConfig :=
  let use_hybrid_extractor := String.eqb extractor_method "hybrid" in
  let use_hybrid_inpaint := String.eqb inpaint_method "hybrid" in
  log INFO (MsgConfig extractor_method inpaint_method);;
  config ← from_defaults w use_hybrid_extractor use_hybrid_inpaint 1;
  if negb (String.eqb inpaint_method "hybrid") then
    inpaint_registry ← build_inpaint_registry w inpaint_method;
    emit (SetConfigAttr "inpaint_registry");;
    mret (set_inpaint_registry inpaint_registry config)
  else mret config.

(** ** [convert]: analysis of the batch *)

(** [executor.submit(service.make_image_editable, path)] for
    [idx, path in enumerate(image_paths)].  A future is identified by the
    index it was submitted under, so [futures[future]] is that index. *)
Fixpoint submit_all (idx : nat) (image_paths : list string) : M unit :=
  match image_paths with
  | [] => mret tt
  | path :: rest => emit (Submit idx path);; submit_all (S idx) rest
  end.

(** The body of [for future in as_completed(futures)].  [results[idx] = ..]
    is in range because [idx] is an index of [image_paths]. *)
Definition collect_future (w : World) (service : ServiceConfig)
    (image_paths : list string) (results : list (option EditableImage))
    (future : nat) : M (list (option EditableImage)) :=
  match image_paths !! future with
  | None => raise KeyError
  | Some path =>
      let idx := future in
      try_except
        (img ← lift (make_image_editable w service path);
         emit (SetItem idx);;
         emit ProgressUpdate;;
         mret (<[idx := Some img]> results))
        (λ e, log ERROR (MsgFailedToAnalyze path e);; raise e)
  end.

(** Step 2 of [convert].  [completed] is the order in which
    [as_completed] hands out the futures. *)
Definition analyze (w : World) (service : ServiceConfig)
    (image_paths : list string) (completed : list nat)
    : M (list (option EditableImage)) :=
  submit_all 0 image_paths;;
  let results := replicate (length image_paths) None in
  for_each completed (collect_future w service image_paths) results.

(** ** [convert]: slide size *)

Definition ASPECT_RATIO_16_9 : float := 16 / 9.
Definition ASPECT_RATIO_TOLERANCE : float := 0.02.

(** [a / b] on ints. *)
Definition truediv (a b : Z) : M float :=
  if b =? 0 then raise ZeroDivisionError
  else mret (float_of_int a / float_of_int b)%float.

(** [abs(aspect_ratio - ASPECT_RATIO_16_9) / ASPECT_RATIO_16_9] *)
Definition ratio_diff (aspect_ratio : float) : float :=
  (PrimFloat.abs (aspect_ratio - ASPECT_RATIO_16_9) / ASPECT_RATIO_16_9)%float.

(** [ratio_diff > ASPECT_RATIO_TOLERANCE] *)
Definition off_ratio (aspect_ratio : float) : bool :=
  PrimFloat.ltb ASPECT_RATIO_TOLERANCE (ratio_diff aspect_ratio).

(** [for idx, img in enumerate(editable_images)] *)
Fixpoint size_loop (idx : nat) (imgs : list (option EditableImage))
    (min_width min_height : pynum) : M (pynum * pynum) :=
  match imgs with
  | [] => mret (min_width, min_height)
  | None :: _ => raise AttributeError
  | Some img :: rest =>
      aspect_ratio ← truediv (width img) (height img);
      (if off_ratio aspect_ratio
       then log WARNING (MsgNot16x9 (idx + 1) aspect_ratio)
       else mret tt);;
      size_loop (S idx) rest
        (py_min min_width (PyInt (width img)))
        (py_min min_height (PyInt (height img)))
  end.

(** [int(x)] *)
Definition py_int (x : pynum) : M Z :=
  match x with
  | PyInt z => mret z
  | PyInf => raise OverflowError
  end.

Definition slide_size (imgs : list (option EditableImage)) : M (Z * Z) :=
  '(min_width, min_height) ← size_loop 0 imgs PyInf PyInf;
  let '(min_width, min_height) :=
    match imgs with
    | [] => (PyInt 1920, PyInt 1080)
    | _ => (min_width, min_height)
    end in
  slide_width ← py_int min_width;
  slide_height ← py_int min_height;
  mret (slide_width, slide_height).

(** ** [convert]: output path *)

Definition choose_output_path (w : World) (output : string) : M Path :=
  let output_path := path_of output in
  if exists_ w output_path then
    let stem := stem output_path in
    let suffix := suffix output_path in
    output_path ← with_name output_path (stem +:+ "_1" +:+ suffix);
    rprint (MsgOutputExists output_path);;
    mret output_path
  else mret output_path.

(** ** [convert] *)

Definition make_text_extractor (w : World) (extract_styles : bool)
    : M (option TextAttributeExtractor) :=
  if extract_styles then
    rprint MsgStep2Extract;;
    try_except
      (x ← lift (create_caption_model_extractor w); mret (Some x))
      (λ e, log WARNING (MsgFailedTextExtractor e);; mret None)
  else
    rprint MsgStep2Skip;; mret None.

Definition call_export (w : World) (args : ExportArgs) : M unit :=
  emit (Export args);;
  lift (create_editable_pptx_with_recursive_analysis w args).

(** Steps 3 and 4 of the [try] block: text attributes, slide size, output
    path, export. *)
Definition generate_pptx (w : World)
    (editable_images : list (option EditableImage)) (output : string)
    (extract_styles : bool) : M unit :=
  text_attribute_extractor ← make_text_extractor w extract_styles;
  rprint MsgStep3;;
  '(slide_width, slide_height) ← slide_size editable_images;
  output_path ← choose_output_path w output;
  call_export w
    {| editable_images := editable_images;
       output_file := str output_path;
       slide_width_pixels := slide_width;
       slide_height_pixels := slide_height;
       text_attribute_extractor := text_attribute_extractor |};;
  rprint (MsgSuccess output_path).

(** The [try] block of [convert]. *)
Definition convert_body (w : World) (completed : list nat)
    (image_paths : list string) (output extractor inpaint : string)
    (extract_styles : bool) : M unit :=
  rprint MsgStep1;;
  service_config ← create_service_config w extractor inpaint;
  emit (NewService service_config);;
  results ← analyze w service_config image_paths completed;
  let editable_images := results in
  generate_pptx w editable_images output extract_styles.

Definition convert (w : World) (completed : list nat) (images : list string)
    (output extractor inpaint : string) (extract_styles : bool) : M unit :=
  rprint MsgBanner;;
  image_paths ← collect_image_paths w images;
  match image_paths with
  | [] => rprint MsgNoValidImages
  | _ =>
      rprint (MsgFound (length image_paths));;
      try_except
        (convert_body w completed image_paths output extractor inpaint
           extract_styles)
        (λ e, rprint (MsgConversionFailed e);;
              log ERROR (MsgConversionFailed e))
  end.

(* ===================================================================== *)
(** * A concrete world, for running the model *)
(* ===================================================================== *)

Module Demo.

Definition files : gset string :=
  {[ "deck.png"; "wide.png"; "old.PNG"; "broken.png"; "notes.txt";
     "out.pptx"; "out_1.pptx";
     "slides/b.PNG"; "slides/a.jpg"; "slides/notes.txt"; "slides/c.webp" ]}.

Definition dirs : gset string := {[ "."; "slides"; "empty" ]}.

Definition ls (p : Path) : list string :=
  if String.eqb (str p) "slides" then ["b.PNG"; "notes.txt"; "c.webp"; "a.jpg"]
  else [].

Definition abs (p : Path) : Path :=
  if absolute p then p
  else {| absolute := true; parts := ["home"; "u"] ++ parts p |}.

Definition img (w h : Z) (s : string) : EditableImage :=
  {| width := w; height := h; payload := s |}.

Definition analysis (cfg : ServiceConfig) (path : string)
    : outcome EditableImage :=
  if String.eqb path "/home/u/deck.png" then Return (img 1920 1080 "deck")
  else if String.eqb path "/home/u/wide.png" then Return (img 1280 720 "wide")
  else if String.eqb path "/home/u/old.PNG" then Return (img 1024 768 "old")
  else if String.eqb path "/home/u/broken.png"
       then Raise (Failure "backend unreachable")
  else Return (img 1600 900 path).

Definition world (baidu : option InpaintProvider) : World :=
  {| is_file := λ p, bool_decide (str p ∈ files);
     is_dir := λ p, bool_decide (str p ∈ dirs);
     exists_ := λ p, bool_decide (str p ∈ files ∪ dirs);
     listdir := ls;
     resolve := abs;
     create_generative_edit_provider := GenerativeEditProvider;
     create_baidu_inpaint_provider := baidu;
     default_inpaint_registry := λ _, empty_registry;
     make_image_editable := analysis;
     create_caption_model_extractor := Return CaptionModelExtractor;
     create_editable_pptx_with_recursive_analysis := λ _, Return tt |}.

End Demo.

(* ===================================================================== *)
(** * The behaviour the specification describes *)
(* ===================================================================== *)

(** These definitions follow the wording of the specification; the
    theorems below compare them with the code above. *)

(** ** Collected paths, argument by argument *)

(** The entries of a directory in sorted name order. *)
Definition entries_by_name (w : World) (dir : Path) : list Path :=
  List.map (joinpath dir) (sorted String.ltb (listdir w dir)).

(** What one path argument contributes to the result. *)
Definition images_of_arg (w : World) (path_str : string) : list string :=
  let path := path_of path_str in
  if is_file w path then
    if has_image_suffix path then [str (resolve w path)] else []
  else if is_dir w path then
    List.map (λ file, str (resolve w file))
      (List.filter has_image_suffix (entries_by_name w path))
  else [].

(** The warning one path argument causes, if any. *)
Definition warnings_of_arg (w : World) (path_str : string) : list effect :=
  let path := path_of path_str in
  if is_file w path then
    if has_image_suffix path then []
    else [Log WARNING (MsgSkippingNonImage path)]
  else if is_dir w path then []
  else [Log WARNING (MsgPathDoesNotExist path)].


(** ** Views of a trace *)

(** The calls to the exporter, the attributes assigned on the config, the
    image numbers warned about, the result slots written. *)
Definition exports (t : list effect) : list ExportArgs :=
  omap (λ ev, match ev with Export a => Some a | _ => None end) t.

Definition attr_writes (t : list effect) : list string :=
  omap (λ ev, match ev with SetConfigAttr f => Some f | _ => None end) t.

Definition ratio_warnings (t : list effect) : list nat :=
  omap (λ ev, match ev with
              | Log WARNING (MsgNot16x9 k _) => Some k
              | _ => None
              end) t.

Definition slot_writes (t : list effect) : list nat :=
  omap (λ ev, match ev with SetItem i => Some i | _ => None end) t.

(** The part of [convert] an effect comes from. *)
Inductive stage : Type :=
  | StCollect | StConfig | StAnalysis | StStyles | StSize | StOutput
  | StExport | StCli.

Definition stage_of (ev : effect) : stage :=
  match ev with
  | Log _ (MsgSkippingNonImage _) | Log _ (MsgPathDoesNotExist _) => StCollect
  | Log _ (MsgConfig _ _) | Log _ MsgUsingGenerative | Log _ MsgUsingBaidu
  | Log _ MsgBaiduUnavailable | NewServiceConfig | SetConfigAttr _ => StConfig
  | Submit _ _ | SetItem _ | ProgressUpdate
  | Log _ (MsgFailedToAnalyze _ _) => StAnalysis
  | Rprint MsgStep2Extract | Rprint MsgStep2Skip
  | Log _ (MsgFailedTextExtractor _) => StStyles
  | Log _ (MsgNot16x9 _ _) => StSize
  | Rprint (MsgOutputExists _) => StOutput
  | Export _ => StExport
  | _ => StCli
  end.

Definition from_stage (s : stage) (t : list effect) : Prop :=
  Forall (λ ev, stage_of ev = s) t.

(** ** The configuration is never touched once built (the claim as stated) *)

(** No attribute of the config is assigned after
    [ServiceConfig.from_defaults] has returned it. *)
Definition never_assigned_after_construction (t : list effect) : Prop :=
  forall pre post, t = pre ++ NewServiceConfig :: post -> attr_writes post = [].

(** No attribute of the config is assigned once the service holds it. *)
Definition never_assigned_in_service (t : list effect) : Prop :=
  forall pre cfg post, t = pre ++ NewService cfg :: post -> attr_writes post = [].

(** ** Batch analysis *)

(** The analysis of one path, when there is one. *)
Definition analysis_of (w : World) (service : ServiceConfig) (path : string)
    : option EditableImage :=
  match make_image_editable w service path with
  | Return img => Some img
  | Raise _ => None
  end.

(** The future submitted under index [future] ran to a result. *)
Definition succeeds (w : World) (service : ServiceConfig)
    (image_paths : list string) (future : nat) : Prop :=
  exists path img, image_paths !! future = Some path
                   /\ make_image_editable w service path = Return img.

(** The effects of collecting one successful future, and the slots after
    collecting several. *)
Definition slot_effects (completed : list nat) : list effect :=
  flat_map (λ i, [SetItem i; ProgressUpdate]) completed.

Definition written (w : World) (service : ServiceConfig)
    (image_paths : list string) (completed : list nat)
    (results : list (option EditableImage)) : list (option EditableImage) :=
  foldl (λ rs i, <[i := image_paths !! i ≫= analysis_of w service]> rs)
    results completed.

(** The futures submitted, in submission order. *)
Fixpoint submissions (idx : nat) (image_paths : list string) : list effect :=
  match image_paths with
  | [] => []
  | path :: rest => Submit idx path :: submissions (S idx) rest
  end.

(** ** Canvas *)

(** [img.width / img.height] for a non-zero height. *)
Definition aspect (img : EditableImage) : float :=
  (float_of_int (width img) / float_of_int (height img))%float.

(** The ratio warnings of a batch, and the image numbers they name: one
    for each image off the 16:9 ratio, numbered from [idx + 1]. *)
Fixpoint ratio_log (idx : nat) (imgs : list EditableImage) : list effect :=
  match imgs with
  | [] => []
  | img :: rest =>
      (if off_ratio (aspect img)
       then [Log WARNING (MsgNot16x9 (idx + 1) (aspect img))] else [])
      ++ ratio_log (S idx) rest
  end.

Fixpoint off_ratio_numbers (idx : nat) (imgs : list EditableImage) : list nat :=
  match imgs with
  | [] => []
  | img :: rest =>
      (if off_ratio (aspect img) then [(idx + 1)%nat] else [])
      ++ off_ratio_numbers (S idx) rest
  end.

(** The minimum of a non-empty sequence of numbers. *)
Definition min_of (first : Z) (rest : list Z) : Z := foldl Z.min first rest.

(** The canvas of a batch: the per-axis minimum, and 1920x1080 when the
    batch is empty. *)
Definition canvas_of (imgs : list EditableImage) : Z * Z :=
  match imgs with
  | [] => (1920, 1080)
  | img :: rest =>
      (min_of (width img) (width <$> rest),
       min_of (height img) (height <$> rest))
  end.

(** ** Output path *)

(** The path with ["_1"] appended to the stem of its name. *)
Definition renamed (p : Path) : Path :=
  {| absolute := absolute p;
     parts := removelast (parts p) ++ [stem p +:+ "_1" +:+ suffix p] |}.

(** ** The run as a whole *)

(** What the [except] clause of [convert] reports. *)
Definition failure_report (e : exn) : list effect :=
  [Rprint (MsgConversionFailed e); Log ERROR (MsgConversionFailed e)].

(** The effects of a run after the service has been created from [cfg]. *)
Definition after_service (w : World) (cfg : ServiceConfig)
    (image_paths : list string) (completed : list nat) (output : string)
    (extract_styles : bool) : list effect :=
  trace (analyze w cfg image_paths completed) ++
  match result (analyze w cfg image_paths completed) with
  | Return imgs =>
      trace (generate_pptx w imgs output extract_styles) ++
      match result (generate_pptx w imgs output extract_styles) with
      | Return _ => []
      | Raise e => failure_report e
      end
  | Raise e => failure_report e
  end.

(** The exporter was called with this canvas. *)
Definition exported_with_canvas (t : list effect) (cw ch : Z) : Prop :=
  exists a, a ∈ exports t
            /\ slide_width_pixels a = cw /\ slide_height_pixels a = ch.

(** Pixel dimensions of an analysed image: positive, and in the range
    where [int / int] is the quotient of the two converted floats. *)
Definition pixel_dims (img : EditableImage) : Prop :=
  0 < width img < 2 ^ 53 /\ 0 < height img < 2 ^ 53.

(* ===================================================================== *)
(** * Further behaviour of [convert] *)
(* ===================================================================== *)

(** The last effect of a run: what the user sees last. *)
Definition final_report (t : list effect) : option effect := last t.

(** The keyword arguments [convert] builds for the exporter. *)
Definition export_args (imgs : list (option EditableImage)) (p : Path)
    (sw sh : Z) (x : option TextAttributeExtractor) : ExportArgs :=
  {| editable_images := imgs; output_file := str p;
     slide_width_pixels := sw; slide_height_pixels := sh;
     text_attribute_extractor := x |}.

(** The success messages of a trace. *)
Definition successes (t : list effect) : list Path :=
  omap (λ ev, match ev with Rprint (MsgSuccess p) => Some p | _ => None end) t.

(** Variations of a world, for running the model on other situations. *)
Definition with_styles (o : outcome TextAttributeExtractor) (w : World)
    : World :=
  {| is_file := is_file w; is_dir := is_dir w; exists_ := exists_ w;
     listdir := listdir w; resolve := resolve w;
     create_generative_edit_provider := create_generative_edit_provider w;
     create_baidu_inpaint_provider := create_baidu_inpaint_provider w;
     default_inpaint_registry := default_inpaint_registry w;
     make_image_editable := make_image_editable w;
     create_caption_model_extractor := o;
     create_editable_pptx_with_recursive_analysis :=
       create_editable_pptx_with_recursive_analysis w |}.

Definition with_exporter (f : ExportArgs -> outcome unit) (w : World)
    : World :=
  {| is_file := is_file w; is_dir := is_dir w; exists_ := exists_ w;
     listdir := listdir w; resolve := resolve w;
     create_generative_edit_provider := create_generative_edit_provider w;
     create_baidu_inpaint_provider := create_baidu_inpaint_provider w;
     default_inpaint_registry := default_inpaint_registry w;
     make_image_editable := make_image_editable w;
     create_caption_model_extractor := create_caption_model_extractor w;
     create_editable_pptx_with_recursive_analysis := f |}.

Definition with_analysis
    (f : ServiceConfig -> string -> outcome EditableImage) (w : World)
    : World :=
  {| is_file := is_file w; is_dir := is_dir w; exists_ := exists_ w;
     listdir := listdir w; resolve := resolve w;
     create_generative_edit_provider := create_generative_edit_provider w;
     create_baidu_inpaint_provider := create_baidu_inpaint_provider w;
     default_inpaint_registry := default_inpaint_registry w;
     make_image_editable := f;
     create_caption_model_extractor := create_caption_model_extractor w;
     create_editable_pptx_with_recursive_analysis :=
       create_editable_pptx_with_recursive_analysis w |}.

(* ===================================================================== *)
(** * Reasoning about computations *)
(* ===================================================================== *)

Section Monad.
Context {A B : Type}.

Lemma bind_Return (t : list effect) (a : A) (f : A -> M B) :
  ((t, Return a) ≫= f) = (t ++ trace (f a), result (f a)).
Proof. unfold mbind, M_bind, trace, result. by destruct (f a). Qed.

Lemma bind_Raise (t : list effect) (e : exn) (f : A -> M B) :
  ((t, Raise e) ≫= f) = (t, Raise e).
Proof. reflexivity. Qed.

Lemma trace_bind (m : M A) (f : A -> M B) :
  trace (m ≫= f) =
  trace m ++ match result m with Return a => trace (f a) | Raise _ => [] end.
Proof.
  destruct m as [t [a|e]]; [rewrite bind_Return | rewrite bind_Raise]; simpl.
  - reflexivity.
  - by rewrite app_nil_r.
Qed.

Lemma result_bind (m : M A) (f : A -> M B) :
  result (m ≫= f) =
  match result m with Return a => result (f a) | Raise e => Raise e end.
Proof.
  destruct m as [t [a|e]]; [rewrite bind_Return | rewrite bind_Raise]; done.
Qed.

Lemma M_eta (m : M A) : m = (trace m, result m).
Proof. by destruct m. Qed.
End Monad.

Lemma trace_try {A : Type} (body : M A) (handler : exn -> M A) :
  trace (try_except body handler) =
  trace body ++
  match result body with Return _ => [] | Raise e => trace (handler e) end.
Proof.
  destruct body as [t [a|e]]; simpl.
  - by rewrite app_nil_r.
  - unfold trace. by destruct (handler e).
Qed.

Lemma result_try {A : Type} (body : M A) (handler : exn -> M A) :
  result (try_except body handler) =
  match result body with Return a => Return a | Raise e => result (handler e) end.
Proof.
  destruct body as [t [a|e]]; simpl; [done|].
  unfold result. by destruct (handler e).
Qed.

Lemma for_each_app {A S : Type} (l1 l2 : list A) (body : S -> A -> M S) (s : S) :
  for_each (l1 ++ l2) body s = (s' ← for_each l1 body s; for_each l2 body s').
Proof.
  revert s. induction l1 as [|x l1 IH]; intros s; simpl.
  - unfold mbind, M_bind, mret, M_ret. by destruct (for_each l2 body s).
  - destruct (body s x) as [t [s'|e]].
    + rewrite !bind_Return, IH.
      destruct (for_each l1 body s') as [t1 [s1|e1]]; [|done].
      unfold mbind, M_bind, trace, result; simpl.
      destruct (for_each l2 body s1) as [t2 r2]; simpl. by rewrite app_assoc.
    + by rewrite !bind_Raise.
Qed.

(* ===================================================================== *)
(** * [sorted] *)
(* ===================================================================== *)

Section SortedFacts.
Context {A : Type} (ltb : A -> A -> bool).
Hypothesis ltb_asym : forall a b, ltb a b = true -> ltb b a = false.





End SortedFacts.

(** Sorting commutes with a map that preserves the comparison. *)
Lemma sorted_map {A B : Type} (ltA : A -> A -> bool) (ltB : B -> B -> bool)
    (f : A -> B) (l : list A) :
  (forall a b, ltB (f a) (f b) = ltA a b) ->
  sorted ltB (List.map f l) = List.map f (sorted ltA l).
Proof.
  intros Hf. induction l as [|x l IH]; simpl; [done|].
  fold (sorted ltB (List.map f l)). fold (sorted ltA l). rewrite IH.
  generalize (sorted ltA l) as s. intros s.
  induction s as [|y s IHs]; simpl; [done|].
  rewrite Hf. destruct (ltA y x); simpl; [by rewrite IHs|done].
Qed.




Lemma string_compare_refl (a : string) : String.compare a a = Eq.
Proof.
  pose proof (String.compare_antisym a a) as H.
  by destruct (String.compare a a).
Qed.

Lemma parts_compare_last (pre : list string) (a b : string) :
  parts_compare (pre ++ [a]) (pre ++ [b]) = String.compare a b.
Proof.
  induction pre as [|x pre IH]; simpl.
  - by destruct (String.compare a b).
  - by rewrite string_compare_refl.
Qed.

(** Two children of one directory compare as their names do. *)
Lemma path_ltb_siblings (dir : Path) (a b : string) :
  path_ltb (joinpath dir a) (joinpath dir b) = String.ltb a b.
Proof.
  unfold path_ltb, cparts, joinpath; simpl.
  by rewrite !(assoc_L (++)), parts_compare_last.
Qed.

Lemma sorted_iterdir (w : World) (dir : Path) :
  sorted path_ltb (iterdir w dir) = entries_by_name w dir.
Proof. apply sorted_map, path_ltb_siblings. Qed.



(* ===================================================================== *)
(** * [collect_image_paths] *)
(* ===================================================================== *)

Lemma bind_mret {A B : Type} (a : A) (f : A -> M B) : (mret a ≫= f) = f a.
Proof. unfold mret, M_ret, mbind, M_bind. by destruct (f a). Qed.

Lemma bind_emit {B : Type} (ev : effect) (k : unit -> M B) :
  (emit ev ≫= k) = (ev :: trace (k tt), result (k tt)).
Proof. unfold emit. by rewrite bind_Return. Qed.

Lemma collect_dir_spec (w : World) (dir : Path) (result : list string) :
  collect_dir w dir result =
  ([], Return (result ++
     List.map (λ file, str (resolve w file))
       (List.filter has_image_suffix (entries_by_name w dir)))).
Proof.
  unfold collect_dir. rewrite sorted_iterdir.
  generalize (entries_by_name w dir) as entries. intros entries.
  revert result. induction entries as [|file entries IH]; intros result; simpl.
  - by rewrite app_nil_r.
  - destruct (has_image_suffix file); rewrite bind_mret, IH; simpl;
      by rewrite <- ?(assoc_L (++)).
Qed.

Lemma collect_arg_spec (w : World) (result : list string) (path_str : string) :
  collect_arg w result path_str =
  (warnings_of_arg w path_str, Return (result ++ images_of_arg w path_str)).
Proof.
  unfold collect_arg, warnings_of_arg, images_of_arg.
  destruct (is_file w (path_of path_str)).
  - destruct (has_image_suffix (path_of path_str)); [done|].
    unfold log. rewrite bind_emit. simpl. by rewrite app_nil_r.
  - destruct (is_dir w (path_of path_str)).
    + apply collect_dir_spec.
    + unfold log. rewrite bind_emit. simpl. by rewrite app_nil_r.
Qed.

Lemma collect_loop_spec (w : World) (paths : list string) (acc : list string) :
  for_each paths (collect_arg w) acc =
  (flat_map (warnings_of_arg w) paths,
   Return (acc ++ flat_map (images_of_arg w) paths)).
Proof.
  revert acc. induction paths as [|p paths IH]; intros acc; simpl.
  - by rewrite app_nil_r.
  - rewrite collect_arg_spec, bind_Return, IH. simpl.
    by rewrite (assoc_L (++)).
Qed.

Lemma collect_image_paths_eq (w : World) (paths : list string) :
  collect_image_paths w paths =
  (flat_map (warnings_of_arg w) paths,
   Return (flat_map (images_of_arg w) paths)).
Proof. apply collect_loop_spec. Qed.


(* ===================================================================== *)
(** * [create_service_config] *)
(* ===================================================================== *)

Lemma from_stage_app (s : stage) (t1 t2 : list effect) :
  from_stage s t1 -> from_stage s t2 -> from_stage s (t1 ++ t2).
Proof. unfold from_stage. rewrite Forall_app. tauto. Qed.

Lemma build_inpaint_registry_total (w : World) (inpaint : string) :
  exists t r, build_inpaint_registry w inpaint = (t, Return r)
              /\ from_stage StConfig t /\ attr_writes t = [].
Proof.
  unfold build_inpaint_registry, from_stage.
  destruct (String.eqb inpaint "generative");
    [|destruct (String.eqb inpaint "baidu");
      [destruct (create_baidu_inpaint_provider w)|]];
    eexists _, _; (split; [reflexivity|]); split; try done;
    by repeat constructor.
Qed.

(** [create_service_config] always returns, and its configuration is the
    one [from_defaults] built, with at most the registry replaced. *)
Lemma create_service_config_total (w : World) (extractor inpaint : string) :
  exists t cfg,
    create_service_config w extractor inpaint = (t, Return cfg)
    /\ from_stage StConfig t
    /\ use_hybrid_extractor cfg = String.eqb extractor "hybrid"
    /\ use_hybrid_inpaint cfg = String.eqb inpaint "hybrid"
    /\ max_depth cfg = 1.
Proof.
  unfold create_service_config, from_defaults, log.
  destruct (build_inpaint_registry_total w inpaint) as (t & r & Hr & Ht & _).
  destruct (String.eqb inpaint "hybrid") eqn:Hhy; simpl.
  - eexists _, _. split; [reflexivity|]. split; [by repeat constructor|done].
  - rewrite Hr. simpl. eexists _, _. split; [reflexivity|].
    split; [|done].
    do 2 (constructor; [done|]).
    apply from_stage_app; [done|by repeat constructor].
Qed.

(** C8: whatever extractor and inpaint methods are chosen,
    [create_service_config] returns a configuration whose [max_depth] is 1;
    so [maxDepth >= 1] holds, and the recursion guard of the spec
    ([depth + 1 < maxDepth]) is false at every depth: decomposition stays
    at the top level. *)
Theorem C8_max_depth_is_one (w : World) (extractor inpaint : string) :
  exists t cfg,
    create_service_config w extractor inpaint = (t, Return cfg)
    /\ max_depth cfg = 1
    /\ 1 <= max_depth cfg
    /\ forall depth : nat, recurses_below (Z.of_nat depth) (max_depth cfg) = false.
Proof.
  destruct (create_service_config_total w extractor inpaint)
    as (t & cfg & Heq & _ & _ & _ & Hd).
  exists t, cfg. rewrite Hd.
  split; [done|]. split; [done|]. split; [lia|].
  intros depth. unfold recurses_below. apply Z.ltb_ge. lia.
Qed.

Lemma attr_writes_app (t1 t2 : list effect) :
  attr_writes (t1 ++ t2) = attr_writes t1 ++ attr_writes t2.
Proof. apply omap_app. Qed.

(** The only assignment on the configuration is the one of
    [inpaint_registry], made for every method but ["hybrid"]. *)
Lemma create_service_config_attr_writes (w : World) (extractor inpaint : string) :
  attr_writes (trace (create_service_config w extractor inpaint)) =
  if String.eqb inpaint "hybrid" then [] else ["inpaint_registry"].
Proof.
  unfold create_service_config, from_defaults, log.
  destruct (build_inpaint_registry_total w inpaint) as (t & r & Hr & _ & Ht).
  destruct (String.eqb inpaint "hybrid"); simpl; [done|].
  rewrite Hr. simpl.
  change (attr_writes (t ++ [SetConfigAttr "inpaint_registry"])
          = ["inpaint_registry"]).
  by rewrite attr_writes_app, Ht.
Qed.

(** C5: for the inpaint methods ["generative"] and ["baidu"] the registry
    attached to the returned configuration has a default provider; when the
    method is ["baidu"] and the Baidu factory yields no provider, that
    default is the generative provider and a warning is logged. *)
Theorem C5_baidu_falls_back_to_generative (w : World)
    (extractor inpaint : string) :
  inpaint = "generative" \/ inpaint = "baidu" ->
  exists t cfg,
    create_service_config w extractor inpaint = (t, Return cfg)
    /\ is_Some (default_provider (inpaint_registry cfg))
    /\ (inpaint = "baidu" -> create_baidu_inpaint_provider w = None ->
        default_provider (inpaint_registry cfg)
          = Some (create_generative_edit_provider w)
        /\ In (Log WARNING MsgBaiduUnavailable) t).
Proof.
  intros [-> | ->];
    unfold create_service_config, build_inpaint_registry, from_defaults, log;
    simpl.
  - eexists _, _. split; [reflexivity|]. split; [by eexists|]. done.
  - destruct (create_baidu_inpaint_provider w) as [p|] eqn:Hp; simpl;
      eexists _, _; (split; [reflexivity|]); (split; [by eexists|]);
      intros _ Hnone; [done|].
    split; [done|]. simpl. tauto.
Qed.

Lemma C5_baidu_falls_back_to_generative_witness :
  exists t cfg,
    create_service_config (Demo.world None) "hybrid" "baidu" = (t, Return cfg)
    /\ default_provider (inpaint_registry cfg) = Some GenerativeEditProvider
    /\ In (Log WARNING MsgBaiduUnavailable) t.
Proof.
  destruct (C5_baidu_falls_back_to_generative (Demo.world None)
              "hybrid" "baidu" (or_intror eq_refl))
    as (t & cfg & Heq & _ & Hfallback).
  exists t, cfg. split; [exact Heq|].
  apply Hfallback; reflexivity.
Defined.

(** C4, as stated, fails: with the inpaint method ["generative"] the
    field [inpaint_registry] is assigned after [from_defaults] has built
    the configuration. *)
Lemma C4_counterexample :
  ~ never_assigned_after_construction
      (trace (create_service_config (Demo.world None) "hybrid" "generative")).
Proof.
  intros H.
  specialize (H [Log INFO (MsgConfig "hybrid" "generative")]
                [Log INFO MsgUsingGenerative; SetConfigAttr "inpaint_registry"]
                eq_refl).
  discriminate H.
Qed.

(* ===================================================================== *)
(** * [convert]: analysis of the batch *)
(* ===================================================================== *)

Section Analysis.
Context (w : World) (service : ServiceConfig) (image_paths : list string).

Lemma collect_future_ok (results : list (option EditableImage))
    (i : nat) (path : string) (img : EditableImage) :
  image_paths !! i = Some path ->
  make_image_editable w service path = Return img ->
  collect_future w service image_paths results i =
  ([SetItem i; ProgressUpdate], Return (<[i := Some img]> results)).
Proof.
  intros Hp Hm. unfold collect_future, lift. by rewrite Hp, Hm.
Qed.

Lemma collect_future_fail (results : list (option EditableImage))
    (i : nat) (path : string) (e : exn) :
  image_paths !! i = Some path ->
  make_image_editable w service path = Raise e ->
  collect_future w service image_paths results i =
  ([Log ERROR (MsgFailedToAnalyze path e)], Raise e).
Proof.
  intros Hp Hm. unfold collect_future, lift. by rewrite Hp, Hm.
Qed.

Lemma written_cons (i : nat) (completed : list nat)
    (results : list (option EditableImage)) :
  written w service image_paths (i :: completed) results =
  written w service image_paths completed
    (<[i := image_paths !! i ≫= analysis_of w service]> results).
Proof. reflexivity. Qed.

Lemma collect_loop_ok (completed : list nat)
    (results : list (option EditableImage)) :
  Forall (succeeds w service image_paths) completed ->
  for_each completed (collect_future w service image_paths) results =
  (slot_effects completed,
   Return (written w service image_paths completed results)).
Proof.
  intros Hall. revert results.
  induction Hall as [|i completed (path & img & Hp & Hm) _ IH];
    intros results; [done|].
  simpl. rewrite (collect_future_ok _ _ _ _ Hp Hm), bind_Return, IH.
  rewrite Hp. simpl. unfold analysis_of. by rewrite Hm.
Qed.

Lemma collect_loop_fail (before after : list nat) (i : nat)
    (path : string) (e : exn) (results : list (option EditableImage)) :
  Forall (succeeds w service image_paths) before ->
  image_paths !! i = Some path ->
  make_image_editable w service path = Raise e ->
  for_each (before ++ i :: after) (collect_future w service image_paths) results =
  (slot_effects before ++ [Log ERROR (MsgFailedToAnalyze path e)], Raise e).
Proof.
  intros Hall Hp Hm.
  rewrite for_each_app, (collect_loop_ok _ _ Hall), bind_Return. simpl.
  by rewrite (collect_future_fail _ _ _ _ Hp Hm), bind_Raise.
Qed.

(** Either every completed future succeeded, or there is a first one
    that failed. *)
Lemma first_failure (completed : list nat) :
  Forall (λ i, (i < length image_paths)%nat) completed ->
  Forall (succeeds w service image_paths) completed
  \/ exists before i after path e,
       completed = before ++ i :: after
       /\ Forall (succeeds w service image_paths) before
       /\ image_paths !! i = Some path
       /\ make_image_editable w service path = Raise e.
Proof.
  induction 1 as [|i completed Hi _ IH]; [by left|].
  destruct (lookup_lt_is_Some_2 _ _ Hi) as [path Hp].
  destruct (make_image_editable w service path) as [img|e] eqn:Hm.
  - destruct IH as [IH | (before & j & after & p & e & -> & Hb & Hj & He)].
    + left. constructor; [by exists path, img|done].
    + right. exists (i :: before), j, after, p, e.
      split; [done|]. split; [|done].
      constructor; [by exists path, img|done].
  - right. by exists [], i, completed, path, e.
Qed.

Lemma written_length (completed : list nat)
    (results : list (option EditableImage)) :
  length (written w service image_paths completed results) = length results.
Proof.
  revert results. induction completed as [|i completed IH];
    intros results; [done|].
  by rewrite written_cons, IH, length_insert.
Qed.

Lemma written_lookup_other (completed : list nat)
    (results : list (option EditableImage)) (i : nat) :
  i ∉ completed ->
  written w service image_paths completed results !! i = results !! i.
Proof.
  revert results. induction completed as [|j completed IH];
    intros results Hi; [done|].
  apply not_elem_of_cons in Hi as [Hne Hi].
  rewrite written_cons, IH by done.
  by apply list_lookup_insert_ne.
Qed.

Lemma written_lookup (completed : list nat)
    (results : list (option EditableImage)) (i : nat) :
  i ∈ completed -> (i < length results)%nat ->
  written w service image_paths completed results !! i
  = Some (image_paths !! i ≫= analysis_of w service).
Proof.
  revert results. induction completed as [|j completed IH];
    intros results Hi Hlen; [by apply elem_of_nil in Hi|].
  rewrite written_cons.
  destruct (decide (i ∈ completed)) as [Hin|Hout].
  - apply IH; [done|]. by rewrite length_insert.
  - apply elem_of_cons in Hi as [->|Hi]; [|done].
    rewrite written_lookup_other by done.
    by apply list_lookup_insert_eq.
Qed.

(** Once every future has been collected, whatever the order, slot [i]
    holds the analysis of [image_paths[i]]. *)
Lemma written_all (completed : list nat) :
  completed ≡ₚ seq 0 (length image_paths) ->
  written w service image_paths completed
    (replicate (length image_paths) None)
  = analysis_of w service <$> image_paths.
Proof.
  intros Hperm. apply list_eq. intros i.
  rewrite list_lookup_fmap.
  destruct (decide (i < length image_paths)%nat) as [Hlt|Hge].
  - rewrite written_lookup.
    + destruct (lookup_lt_is_Some_2 _ _ Hlt) as [path Hp]. by rewrite Hp.
    + rewrite Hperm. apply elem_of_seq. lia.
    + by rewrite length_replicate.
  - rewrite !lookup_ge_None_2; [done|lia|].
    rewrite written_length, length_replicate. lia.
Qed.

Lemma submit_all_spec (idx : nat) (paths : list string) :
  submit_all idx paths = (submissions idx paths, Return tt).
Proof.
  revert idx. induction paths as [|p paths IH]; intros idx; [done|].
  change (submit_all idx (p :: paths))
    with (emit (Submit idx p) ≫= λ _, submit_all (S idx) paths).
  by rewrite bind_emit, IH.
Qed.

Lemma analyze_eq (completed : list nat) :
  analyze w service image_paths completed =
  (submissions 0 image_paths ++
     trace (for_each completed (collect_future w service image_paths)
              (replicate (length image_paths) None)),
   result (for_each completed (collect_future w service image_paths)
             (replicate (length image_paths) None))).
Proof. unfold analyze. by rewrite submit_all_spec, bind_Return. Qed.
End Analysis.

Lemma slot_writes_app (t1 t2 : list effect) :
  slot_writes (t1 ++ t2) = slot_writes t1 ++ slot_writes t2.
Proof. apply omap_app. Qed.

Lemma slot_writes_submissions (idx : nat) (paths : list string) :
  slot_writes (submissions idx paths) = [].
Proof.
  revert idx. induction paths as [|p paths IH]; intros idx; [done|apply IH].
Qed.

Lemma slot_writes_slot_effects (completed : list nat) :
  slot_writes (slot_effects completed) = completed.
Proof.
  induction completed as [|i completed IH]; [done|].
  change (slot_effects (i :: completed))
    with ([SetItem i; ProgressUpdate] ++ slot_effects completed).
  by rewrite slot_writes_app, IH.
Qed.

Lemma completed_in_range (n : nat) (completed : list nat) :
  completed ≡ₚ seq 0 n -> Forall (λ i, (i < n)%nat) completed.
Proof.
  intros Hperm. apply Forall_forall. intros i Hi.
  rewrite Hperm in Hi. apply elem_of_seq in Hi. lia.
Qed.

Lemma analyze_ok (w : World) (service : ServiceConfig)
    (image_paths : list string) (completed : list nat) :
  completed ≡ₚ seq 0 (length image_paths) ->
  Forall (succeeds w service image_paths) completed ->
  analyze w service image_paths completed =
  (submissions 0 image_paths ++ slot_effects completed,
   Return (analysis_of w service <$> image_paths)).
Proof.
  intros Hperm Hall.
  by rewrite analyze_eq, collect_loop_ok, written_all.
Qed.

Lemma analyze_fail (w : World) (service : ServiceConfig)
    (image_paths : list string) (before after : list nat) (i : nat)
    (path : string) (e : exn) :
  Forall (succeeds w service image_paths) before ->
  image_paths !! i = Some path ->
  make_image_editable w service path = Raise e ->
  analyze w service image_paths (before ++ i :: after) =
  (submissions 0 image_paths ++ slot_effects before
     ++ [Log ERROR (MsgFailedToAnalyze path e)],
   Raise e).
Proof.
  intros Hall Hp Hm.
  by rewrite analyze_eq, (collect_loop_fail _ _ _ _ _ _ _ _ _ Hall Hp Hm).
Qed.

(** C2: for every batch of image paths and every completion order of the
    worker-pool tasks (every permutation of the submitted futures), the
    result sequence the analysis step produces holds at index [i] the
    analysis of [image_paths[i]]; it is produced whenever every analysis
    succeeds, and then each slot has been written exactly once, by the
    future submitted under that index.  In every run no slot is written
    twice. *)
Theorem C2_results_follow_input_order (w : World) (service : ServiceConfig)
    (image_paths : list string) (completed : list nat) :
  completed ≡ₚ seq 0 (length image_paths) ->
  (forall results,
      result (analyze w service image_paths completed) = Return results ->
      length results = length image_paths
      /\ (forall i path,
            image_paths !! i = Some path ->
            exists img, make_image_editable w service path = Return img
                        /\ results !! i = Some (Some img))
      /\ slot_writes (trace (analyze w service image_paths completed))
         = completed)
  /\ (Forall (λ path, is_Some (analysis_of w service path)) image_paths ->
      exists results,
        result (analyze w service image_paths completed) = Return results)
  /\ NoDup (slot_writes (trace (analyze w service image_paths completed))).
Proof.
  intros Hperm.
  assert (NoDup completed) as Hnodup by (rewrite Hperm; apply NoDup_seq).
  destruct (first_failure w service image_paths completed
              (completed_in_range _ _ Hperm))
    as [Hall | (before & j & after & p & e & Hsplit & Hb & Hj & He)].
  - rewrite (analyze_ok _ _ _ _ Hperm Hall). simpl.
    rewrite slot_writes_app, slot_writes_submissions, slot_writes_slot_effects.
    split; [|split; [by eexists|done]].
    intros results [= <-]. rewrite length_fmap. split; [done|].
    split; [|done]. intros i path Hp.
    assert (i ∈ completed) as Hi.
    { rewrite Hperm. apply elem_of_seq. apply lookup_lt_Some in Hp. lia. }
    destruct (proj1 (Forall_forall _ _) Hall i Hi) as (path' & img & Hp' & Hm).
    rewrite Hp in Hp'. injection Hp' as <-.
    exists img. split; [done|].
    rewrite list_lookup_fmap, Hp. simpl. unfold analysis_of. by rewrite Hm.
  - subst completed. rewrite (analyze_fail _ _ _ _ _ _ _ _ Hb Hj He). simpl.
    split; [done|]. split.
    + intros Hok. exfalso.
      assert (p ∈ image_paths) as Hin by (by eapply list_elem_of_lookup_2).
      destruct (proj1 (Forall_forall _ _) Hok p Hin) as [img Himg].
      unfold analysis_of in Himg. by rewrite He in Himg.
    + rewrite !slot_writes_app, slot_writes_submissions,
        slot_writes_slot_effects. simpl. rewrite app_nil_r.
      by apply NoDup_app in Hnodup as [? _].
Qed.

Lemma C2_results_follow_input_order_witness :
  result (analyze (Demo.world None)
            (set_inpaint_registry empty_registry
               {| use_hybrid_extractor := true; use_hybrid_inpaint := true;
                  max_depth := 1; inpaint_registry := empty_registry |})
            ["/home/u/deck.png"; "/home/u/wide.png"; "/home/u/old.PNG"]
            [2; 0; 1]%nat)
  = Return [Some (Demo.img 1920 1080 "deck");
            Some (Demo.img 1280 720 "wide");
            Some (Demo.img 1024 768 "old")]
  /\ NoDup (slot_writes (trace (analyze (Demo.world None)
            (set_inpaint_registry empty_registry
               {| use_hybrid_extractor := true; use_hybrid_inpaint := true;
                  max_depth := 1; inpaint_registry := empty_registry |})
            ["/home/u/deck.png"; "/home/u/wide.png"; "/home/u/old.PNG"]
            [2; 0; 1]%nat))).
Proof.
  split; [reflexivity|].
  apply (C2_results_follow_input_order (Demo.world None) _
           ["/home/u/deck.png"; "/home/u/wide.png"; "/home/u/old.PNG"]
           [2; 0; 1]%nat).
  apply (Permutation_cons_app [0%nat; 1%nat] [] 2%nat). simpl.
  reflexivity.
Defined.

(* ===================================================================== *)
(** * [convert]: slide size *)
(* ===================================================================== *)

Lemma py_min_int (a b : Z) : py_min (PyInt a) (PyInt b) = PyInt (Z.min a b).
Proof.
  unfold py_min, py_lt. destruct (Z.ltb_spec b a); f_equal; lia.
Qed.

Lemma py_min_inf (b : Z) : py_min PyInf (PyInt b) = PyInt b.
Proof. reflexivity. Qed.

Lemma truediv_nonzero (a b : Z) :
  b <> 0 -> truediv a b = mret (float_of_int a / float_of_int b)%float.
Proof.
  intros Hb. unfold truediv. by destruct (Z.eqb_spec b 0).
Qed.

Lemma size_loop_step (idx : nat) (img : EditableImage)
    (rest : list (option EditableImage)) (mw mh : pynum) :
  height img <> 0 ->
  size_loop idx (Some img :: rest) mw mh =
  ((if off_ratio (aspect img)
    then [Log WARNING (MsgNot16x9 (idx + 1) (aspect img))] else [])
   ++ trace (size_loop (S idx) rest (py_min mw (PyInt (width img)))
                                    (py_min mh (PyInt (height img)))),
   result (size_loop (S idx) rest (py_min mw (PyInt (width img)))
                                  (py_min mh (PyInt (height img))))).
Proof.
  intros Hh. cbn [size_loop]. rewrite (truediv_nonzero _ _ Hh), bind_mret.
  fold (aspect img). destruct (off_ratio (aspect img)).
  - unfold log. by rewrite bind_emit.
  - rewrite bind_mret. apply M_eta.
Qed.

Lemma size_loop_spec (imgs : list EditableImage) (idx : nat) (a b : Z) :
  Forall (λ img, height img <> 0) imgs ->
  size_loop idx (Some <$> imgs) (PyInt a) (PyInt b) =
  (ratio_log idx imgs,
   Return (PyInt (min_of a (width <$> imgs)),
           PyInt (min_of b (height <$> imgs)))).
Proof.
  intros Hall. revert idx a b.
  induction Hall as [|img imgs Hh _ IH]; intros idx a b; [done|].
  rewrite fmap_cons, (size_loop_step _ _ _ _ _ Hh), !py_min_int, IH.
  reflexivity.
Qed.

(** The slide size of a non-empty batch is its canvas, and so is that of
    the empty batch. *)
Lemma slide_size_spec (imgs : list EditableImage) :
  Forall (λ img, height img <> 0) imgs ->
  slide_size (Some <$> imgs) = (ratio_log 0 imgs, Return (canvas_of imgs)).
Proof.
  intros Hall. unfold slide_size.
  destruct Hall as [|img rest Hh Hrest]; [done|].
  rewrite fmap_cons, (size_loop_step _ _ _ _ _ Hh), !py_min_inf.
  rewrite (size_loop_spec _ _ _ _ Hrest). simpl. by rewrite app_nil_r.
Qed.

Lemma size_loop_inv (imgs : list (option EditableImage)) (idx : nat)
    (mw mh : pynum) (r : pynum * pynum) :
  result (size_loop idx imgs mw mh) = Return r ->
  exists l, imgs = Some <$> l /\ Forall (λ img, height img <> 0) l.
Proof.
  revert idx mw mh. induction imgs as [|[img|] imgs IH]; intros idx mw mh Hr.
  - by exists [].
  - destruct (decide (height img = 0)) as [Hz|Hnz].
    + exfalso. cbn [size_loop] in Hr. unfold truediv in Hr.
      rewrite Hz in Hr. simpl in Hr. discriminate Hr.
    + rewrite (size_loop_step _ _ _ _ _ Hnz) in Hr. simpl in Hr.
      destruct (IH _ _ _ Hr) as (l & -> & Hl).
      exists (img :: l). split; [done|by constructor].
  - discriminate Hr.
Qed.

Lemma slide_size_inv (imgs : list (option EditableImage)) (sw sh : Z) :
  result (slide_size imgs) = Return (sw, sh) ->
  exists l, imgs = Some <$> l
            /\ Forall (λ img, height img <> 0) l
            /\ canvas_of l = (sw, sh).
Proof.
  intros Hr.
  destruct (size_loop 0 imgs PyInf PyInf) as [t [r|e]] eqn:Hloop.
  - destruct (size_loop_inv imgs 0%nat PyInf PyInf r) as (l & -> & Hl).
    { by rewrite Hloop. }
    exists l. split; [done|]. split; [done|].
    rewrite (slide_size_spec _ Hl) in Hr. simpl in Hr. by injection Hr.
  - unfold slide_size in Hr. rewrite Hloop, bind_Raise in Hr. discriminate Hr.
Qed.

Lemma size_loop_stage (imgs : list (option EditableImage)) (idx : nat)
    (mw mh : pynum) :
  from_stage StSize (trace (size_loop idx imgs mw mh)).
Proof.
  revert idx mw mh. induction imgs as [|[img|] imgs IH]; intros idx mw mh.
  - constructor.
  - destruct (decide (height img = 0)) as [Hz|Hnz].
    + cbn [size_loop]. unfold truediv. rewrite Hz. simpl. constructor.
    + rewrite (size_loop_step _ _ _ _ _ Hnz). simpl.
      apply from_stage_app; [|apply IH].
      destruct (off_ratio (aspect img)); by repeat constructor.
  - constructor.
Qed.

Lemma slide_size_stage (imgs : list (option EditableImage)) :
  from_stage StSize (trace (slide_size imgs)).
Proof.
  unfold slide_size. rewrite trace_bind.
  apply from_stage_app; [apply size_loop_stage|].
  destruct (result (size_loop 0 imgs PyInf PyInf)) as [[mw mh]|e];
    [|constructor].
  destruct imgs; [constructor|].
  destruct mw, mh; constructor.
Qed.

(** [min_of] is the minimum. *)
Lemma min_of_le_first (a : Z) (l : list Z) : min_of a l <= a.
Proof.
  revert a. induction l as [|b l IH]; intros a; simpl; [lia|].
  specialize (IH (Z.min a b)). unfold min_of in *. simpl. lia.
Qed.

Lemma min_of_lower_bound (a : Z) (l : list Z) :
  Forall (λ x, min_of a l <= x) (a :: l).
Proof.
  constructor; [apply min_of_le_first|].
  revert a. induction l as [|b l IH]; intros a; [constructor|].
  change (min_of a (b :: l)) with (min_of (Z.min a b) l).
  constructor; [|apply IH].
  pose proof (min_of_le_first (Z.min a b) l). lia.
Qed.

Lemma min_of_attained (a : Z) (l : list Z) : min_of a l ∈ a :: l.
Proof.
  revert a. induction l as [|b l IH]; intros a; [by left|].
  change (min_of a (b :: l)) with (min_of (Z.min a b) l).
  specialize (IH (Z.min a b)).
  apply elem_of_cons in IH as [Heq|Hin].
  - rewrite Heq. destruct (Z.min_spec a b) as [[_ ->]|[_ ->]].
    + by left.
    + right. by left.
  - right. by right.
Qed.

(* ===================================================================== *)
(** * Views of a trace, stage by stage *)
(* ===================================================================== *)

Lemma exports_app (t1 t2 : list effect) :
  exports (t1 ++ t2) = exports t1 ++ exports t2.
Proof. apply omap_app. Qed.

Lemma ratio_warnings_app (t1 t2 : list effect) :
  ratio_warnings (t1 ++ t2) = ratio_warnings t1 ++ ratio_warnings t2.
Proof. apply omap_app. Qed.

Lemma omap_from_stage {B : Type} (f : effect -> option B) (s : stage)
    (t : list effect) :
  (forall ev, stage_of ev = s -> f ev = None) ->
  from_stage s t -> omap f t = [].
Proof.
  intros Hf. induction 1 as [|ev t Hev _ IH]; [done|].
  simpl. by rewrite (Hf ev Hev).
Qed.

Lemma exports_from_stage (s : stage) (t : list effect) :
  s <> StExport -> from_stage s t -> exports t = [].
Proof.
  intros Hs. apply omap_from_stage.
  intros [] Hev; simpl in *; congruence.
Qed.

Lemma attr_writes_from_stage (s : stage) (t : list effect) :
  s <> StConfig -> from_stage s t -> attr_writes t = [].
Proof.
  intros Hs. apply omap_from_stage.
  intros [] Hev; simpl in *; congruence.
Qed.

Lemma ratio_warnings_from_stage (s : stage) (t : list effect) :
  s <> StSize -> from_stage s t -> ratio_warnings t = [].
Proof.
  intros Hs. apply omap_from_stage.
  intros [|[] []| | | | | | |] Hev; simpl in *; congruence.
Qed.

Lemma slot_writes_from_stage (s : stage) (t : list effect) :
  s <> StAnalysis -> from_stage s t -> slot_writes t = [].
Proof.
  intros Hs. apply omap_from_stage.
  intros [] Hev; simpl in *; congruence.
Qed.

Lemma collect_stage (w : World) (paths : list string) :
  from_stage StCollect (flat_map (warnings_of_arg w) paths).
Proof.
  induction paths as [|p paths IH]; [constructor|].
  simpl. apply from_stage_app; [|done].
  unfold warnings_of_arg.
  destruct (is_file w (path_of p));
    [destruct (has_image_suffix (path_of p))|destruct (is_dir w (path_of p))];
    by repeat constructor.
Qed.

Lemma collect_loop_stage (w : World) (service : ServiceConfig)
    (image_paths : list string) (completed : list nat)
    (results : list (option EditableImage)) :
  from_stage StAnalysis
    (trace (for_each completed (collect_future w service image_paths) results)).
Proof.
  revert results. induction completed as [|i completed IH]; intros results;
    [constructor|].
  cbn [for_each]. rewrite trace_bind. apply from_stage_app.
  - unfold collect_future, lift.
    destruct (image_paths !! i) as [path|]; [|constructor].
    destruct (make_image_editable w service path); by repeat constructor.
  - destruct (result _); [apply IH|constructor].
Qed.

Lemma submissions_stage (idx : nat) (paths : list string) :
  from_stage StAnalysis (submissions idx paths).
Proof.
  revert idx. induction paths as [|p paths IH]; intros idx; simpl.
  - constructor.
  - constructor; [done|apply IH].
Qed.

Lemma analyze_stage (w : World) (service : ServiceConfig)
    (image_paths : list string) (completed : list nat) :
  from_stage StAnalysis (trace (analyze w service image_paths completed)).
Proof.
  rewrite analyze_eq. simpl.
  apply from_stage_app; [apply submissions_stage|apply collect_loop_stage].
Qed.

Lemma make_text_extractor_total (w : World) (extract_styles : bool) :
  exists t x, make_text_extractor w extract_styles = (t, Return x)
              /\ from_stage StStyles t.
Proof.
  unfold make_text_extractor, rprint, log, lift.
  destruct extract_styles; [destruct (create_caption_model_extractor w)|];
    eexists _, _; (split; [reflexivity|]); by repeat constructor.
Qed.

(* ===================================================================== *)
(** * [convert]: output path and export *)
(* ===================================================================== *)

Lemma choose_output_path_fresh (w : World) (output : string) :
  exists_ w (path_of output) = false ->
  choose_output_path w output = ([], Return (path_of output)).
Proof. intros He. unfold choose_output_path. by rewrite He. Qed.

Lemma choose_output_path_taken (w : World) (output : string) :
  exists_ w (path_of output) = true ->
  name (path_of output) <> "" ->
  choose_output_path w output =
  ([Rprint (MsgOutputExists (renamed (path_of output)))],
   Return (renamed (path_of output))).
Proof.
  intros He Hn. unfold choose_output_path, with_name. rewrite He.
  destruct (String.eqb_spec (name (path_of output)) ""); [done|].
  by rewrite bind_mret.
Qed.

Lemma choose_output_path_stage (w : World) (output : string) :
  from_stage StOutput (trace (choose_output_path w output)).
Proof.
  unfold choose_output_path, with_name.
  destruct (exists_ w (path_of output)); [|constructor].
  destruct (String.eqb (name (path_of output)) ""); [constructor|].
  rewrite bind_mret. by repeat constructor.
Qed.

(** The effects of steps 3 and 4, spelled out. *)
Lemma generate_pptx_trace (w : World) (imgs : list (option EditableImage))
    (output : string) (extract_styles : bool) :
  exists t_styles x,
    make_text_extractor w extract_styles = (t_styles, Return x)
    /\ from_stage StStyles t_styles
    /\ trace (generate_pptx w imgs output extract_styles) =
       t_styles ++ Rprint MsgStep3 :: trace (slide_size imgs) ++
       match result (slide_size imgs) with
       | Return (sw, sh) =>
           trace (choose_output_path w output) ++
           match result (choose_output_path w output) with
           | Return p =>
               let args :=
                 {| editable_images := imgs; output_file := str p;
                    slide_width_pixels := sw; slide_height_pixels := sh;
                    text_attribute_extractor := x |} in
               Export args ::
               match create_editable_pptx_with_recursive_analysis w args with
               | Return _ => [Rprint (MsgSuccess p)]
               | Raise _ => []
               end
           | Raise _ => []
           end
       | Raise _ => []
       end.
Proof.
  destruct (make_text_extractor_total w extract_styles) as (t & x & Hx & Ht).
  exists t, x. split; [done|]. split; [done|].
  unfold generate_pptx, rprint, call_export, lift.
  rewrite Hx, bind_Return, bind_emit. simpl. f_equal. f_equal.
  destruct (slide_size imgs) as [ts [[sw sh]|e]]; simpl; [|by rewrite app_nil_r].
  f_equal.
  destruct (choose_output_path w output) as [to [p|e]]; simpl;
    [|by rewrite app_nil_r].
  f_equal.
  by destruct (create_editable_pptx_with_recursive_analysis w _) as [[]|e'].
Qed.

Lemma generate_pptx_attr_writes (w : World)
    (imgs : list (option EditableImage)) (output : string)
    (extract_styles : bool) :
  attr_writes (trace (generate_pptx w imgs output extract_styles)) = [].
Proof.
  destruct (generate_pptx_trace w imgs output extract_styles)
    as (t & x & _ & Ht & ->).
  rewrite attr_writes_app, (attr_writes_from_stage StStyles) by done.
  change (attr_writes (Rprint MsgStep3 :: ?l)) with (attr_writes l).
  rewrite attr_writes_app,
    (attr_writes_from_stage StSize _ ltac:(done) (slide_size_stage imgs)).
  destruct (result (slide_size imgs)) as [[sw sh]|e]; [|done].
  rewrite attr_writes_app,
    (attr_writes_from_stage StOutput _ ltac:(done)
       (choose_output_path_stage w output)).
  destruct (result (choose_output_path w output)) as [p|e]; [|done].
  simpl. by destruct (create_editable_pptx_with_recursive_analysis w _).
Qed.

Lemma generate_pptx_ratio_warnings (w : World)
    (imgs : list (option EditableImage)) (output : string)
    (extract_styles : bool) :
  ratio_warnings (trace (generate_pptx w imgs output extract_styles)) =
  ratio_warnings (trace (slide_size imgs)).
Proof.
  destruct (generate_pptx_trace w imgs output extract_styles)
    as (t & x & _ & Ht & ->).
  rewrite ratio_warnings_app, (ratio_warnings_from_stage StStyles) by done.
  change (ratio_warnings (Rprint MsgStep3 :: ?l)) with (ratio_warnings l).
  rewrite ratio_warnings_app.
  destruct (result (slide_size imgs)) as [[sw sh]|e]; [|by rewrite app_nil_r].
  rewrite ratio_warnings_app,
    (ratio_warnings_from_stage StOutput _ ltac:(done)
       (choose_output_path_stage w output)).
  destruct (result (choose_output_path w output)) as [p|e];
    [|by rewrite app_nil_r].
  simpl. destruct (create_editable_pptx_with_recursive_analysis w _);
    by rewrite app_nil_r.
Qed.

(** Every call to the exporter passes the analysed batch, the slide size
    computed from it and the chosen output path; there is exactly one such
    call when both computations return, and none otherwise. *)
Lemma generate_pptx_exports (w : World) (imgs : list (option EditableImage))
    (output : string) (extract_styles : bool) :
  match result (slide_size imgs), result (choose_output_path w output) with
  | Return (sw, sh), Return p =>
      exists x,
        exports (trace (generate_pptx w imgs output extract_styles)) =
        [{| editable_images := imgs; output_file := str p;
            slide_width_pixels := sw; slide_height_pixels := sh;
            text_attribute_extractor := x |}]
  | _, _ => exports (trace (generate_pptx w imgs output extract_styles)) = []
  end.
Proof.
  destruct (generate_pptx_trace w imgs output extract_styles)
    as (t & x & _ & Ht & ->).
  rewrite exports_app, (exports_from_stage StStyles) by done.
  change (exports (Rprint MsgStep3 :: ?l)) with (exports l).
  rewrite exports_app,
    (exports_from_stage StSize _ ltac:(done) (slide_size_stage imgs)).
  destruct (result (slide_size imgs)) as [[sw sh]|e]; [|done].
  rewrite exports_app,
    (exports_from_stage StOutput _ ltac:(done)
       (choose_output_path_stage w output)).
  destruct (result (choose_output_path w output)) as [p|e]; [|done].
  exists x. simpl.
  by destruct (create_editable_pptx_with_recursive_analysis w _).
Qed.

(* ===================================================================== *)
(** * [convert] *)
(* ===================================================================== *)

Lemma convert_body_eq (w : World) (completed : list nat)
    (image_paths : list string) (output extractor inpaint : string)
    (extract_styles : bool) (t_cfg : list effect) (cfg : ServiceConfig) :
  create_service_config w extractor inpaint = (t_cfg, Return cfg) ->
  convert_body w completed image_paths output extractor inpaint extract_styles
  = (Rprint MsgStep1 :: t_cfg ++ NewService cfg ::
       trace (analyze w cfg image_paths completed) ++
       match result (analyze w cfg image_paths completed) with
       | Return imgs => trace (generate_pptx w imgs output extract_styles)
       | Raise _ => []
       end,
     match result (analyze w cfg image_paths completed) with
     | Return imgs => result (generate_pptx w imgs output extract_styles)
     | Raise e => Raise e
     end).
Proof.
  intros Hcfg. unfold convert_body, rprint.
  rewrite bind_emit, Hcfg, bind_Return, bind_emit. simpl.
  by rewrite trace_bind, result_bind.
Qed.

(** The effects of a run: the banner, the warnings of the path
    collection, and then either the "no valid images" message or the
    [try] block followed, when it raised, by the failure report. *)
Lemma convert_trace (w : World) (completed : list nat) (images : list string)
    (output extractor inpaint : string) (extract_styles : bool) :
  exists t_cfg cfg,
    create_service_config w extractor inpaint = (t_cfg, Return cfg)
    /\ from_stage StConfig t_cfg
    /\ trace (convert w completed images output extractor inpaint
                extract_styles) =
       Rprint MsgBanner :: flat_map (warnings_of_arg w) images ++
       match flat_map (images_of_arg w) images with
       | [] => [Rprint MsgNoValidImages]
       | paths =>
           Rprint (MsgFound (length paths)) :: Rprint MsgStep1 :: t_cfg ++
           NewService cfg ::
           after_service w cfg paths completed output extract_styles
       end
    /\ result (convert w completed images output extractor inpaint
                 extract_styles) = Return tt.
Proof.
  destruct (create_service_config_total w extractor inpaint)
    as (t_cfg & cfg & Hcfg & Hstage & _).
  exists t_cfg, cfg. split; [done|]. split; [done|].
  unfold convert, rprint.
  rewrite bind_emit, collect_image_paths_eq, bind_Return. simpl.
  destruct (flat_map (images_of_arg w) images) as [|p paths] eqn:Hpaths.
  { done. }
  rewrite (M_eta (try_except _ _)), trace_try, result_try.
  rewrite (convert_body_eq _ _ _ _ _ _ _ _ _ Hcfg). simpl.
  unfold after_service.
  unfold failure_report.
  destruct (result (analyze w cfg (p :: paths) completed)) as [imgs|e]; simpl.
  - split.
    + repeat (rewrite <- app_assoc || rewrite <- app_comm_cons). reflexivity.
    + by destruct (result (generate_pptx w imgs output extract_styles))
        as [[]|e].
  - split; [|done].
    repeat (rewrite <- app_assoc || rewrite <- app_comm_cons). reflexivity.
Qed.

Lemma collect_loop_length (w : World) (service : ServiceConfig)
    (image_paths : list string) (completed : list nat)
    (results results' : list (option EditableImage)) :
  result (for_each completed (collect_future w service image_paths) results)
    = Return results' ->
  length results' = length results.
Proof.
  revert results. induction completed as [|i completed IH]; intros results.
  - by intros [= <-].
  - cbn [for_each]. rewrite result_bind.
    unfold collect_future at 1, lift.
    destruct (image_paths !! i) as [path|]; [|done].
    destruct (make_image_editable w service path) as [img|e]; [|done].
    simpl. intros Hr. rewrite (IH _ Hr). apply length_insert.
Qed.

Lemma analyze_length (w : World) (service : ServiceConfig)
    (image_paths : list string) (completed : list nat)
    (results : list (option EditableImage)) :
  result (analyze w service image_paths completed) = Return results ->
  length results = length image_paths.
Proof.
  rewrite analyze_eq. simpl. intros Hr.
  rewrite (collect_loop_length _ _ _ _ _ _ Hr). apply length_replicate.
Qed.

Lemma exports_failure_report (e : exn) : exports (failure_report e) = [].
Proof. reflexivity. Qed.

(** The exporter is only called from step 4, after a successful analysis
    of a non-empty batch. *)
Lemma convert_exports (w : World) (completed : list nat)
    (images : list string) (output extractor inpaint : string)
    (extract_styles : bool) :
  exists t_cfg cfg,
    create_service_config w extractor inpaint = (t_cfg, Return cfg)
    /\ exports (trace (convert w completed images output extractor inpaint
                         extract_styles)) =
       match flat_map (images_of_arg w) images with
       | [] => []
       | paths =>
           match result (analyze w cfg paths completed) with
           | Return imgs =>
               exports (trace (generate_pptx w imgs output extract_styles))
           | Raise _ => []
           end
       end.
Proof.
  destruct (convert_trace w completed images output extractor inpaint
              extract_styles) as (t_cfg & cfg & Hcfg & Hstage & -> & _).
  exists t_cfg, cfg. split; [done|].
  change (exports (Rprint MsgBanner :: ?l)) with (exports l).
  rewrite exports_app,
    (exports_from_stage StCollect _ ltac:(done) (collect_stage w images)).
  destruct (flat_map (images_of_arg w) images) as [|p paths]; [done|].
  cbv zeta. rewrite app_nil_l.
  change (exports (Rprint ?a :: Rprint ?b :: ?l)) with (exports l).
  rewrite exports_app, (exports_from_stage StConfig _ ltac:(done) Hstage).
  rewrite app_nil_l.
  change (exports (NewService ?c :: ?l)) with (exports l).
  unfold after_service.
  rewrite exports_app,
    (exports_from_stage StAnalysis _ ltac:(done) (analyze_stage _ _ _ _)).
  destruct (result (analyze w cfg (p :: paths) completed)) as [imgs|e];
    [|done].
  rewrite exports_app. simpl.
  destruct (result (generate_pptx w imgs output extract_styles));
    by rewrite ?exports_failure_report, app_nil_r.
Qed.

(** Whatever [convert] hands to the exporter is a non-empty analysed batch
    with its canvas and the path chosen for the output. *)
Lemma convert_export_inv (w : World) (completed : list nat)
    (images : list string) (output extractor inpaint : string)
    (extract_styles : bool) (a : ExportArgs) :
  a ∈ exports (trace (convert w completed images output extractor inpaint
                        extract_styles)) ->
  exists img rest p,
    editable_images a = Some <$> img :: rest
    /\ Forall (λ i, height i <> 0) (img :: rest)
    /\ (slide_width_pixels a, slide_height_pixels a) = canvas_of (img :: rest)
    /\ result (choose_output_path w output) = Return p
    /\ output_file a = str p.
Proof.
  destruct (convert_exports w completed images output extractor inpaint
              extract_styles) as (t_cfg & cfg & Hcfg & ->).
  destruct (flat_map (images_of_arg w) images) as [|q paths];
    [by intros ?%elem_of_nil|].
  destruct (result (analyze w cfg (q :: paths) completed)) as [imgs|e] eqn:Han;
    [|by intros ?%elem_of_nil].
  pose proof (generate_pptx_exports w imgs output extract_styles) as Hex.
  destruct (result (slide_size imgs)) as [[sw sh]|e] eqn:Hsize.
  - destruct (result (choose_output_path w output)) as [p|e] eqn:Hout.
    + destruct Hex as [x ->]. intros ->%list_elem_of_singleton. simpl.
      destruct (slide_size_inv _ _ _ Hsize) as (l & -> & Hl & Hcanvas).
      apply analyze_length in Han. rewrite length_fmap in Han.
      destruct l as [|img rest]; [done|].
      by exists img, rest, p.
    + rewrite Hex. by intros ?%elem_of_nil.
  - rewrite Hex. by intros ?%elem_of_nil.
Qed.

(* ===================================================================== *)
(** * The claims about the canvas *)
(* ===================================================================== *)

Lemma canvas_of_is_minimum (img : EditableImage) (rest : list EditableImage) :
  Forall (λ i, (canvas_of (img :: rest)).1 <= width i
               /\ (canvas_of (img :: rest)).2 <= height i) (img :: rest)
  /\ (canvas_of (img :: rest)).1 ∈ width <$> img :: rest
  /\ (canvas_of (img :: rest)).2 ∈ height <$> img :: rest.
Proof.
  simpl. split; [|split].
  - pose proof (min_of_lower_bound (width img) (width <$> rest)) as Hw.
    pose proof (min_of_lower_bound (height img) (height <$> rest)) as Hh.
    change (width img :: (width <$> rest)) with (width <$> img :: rest) in Hw.
    change (height img :: (height <$> rest)) with (height <$> img :: rest) in Hh.
    rewrite Forall_fmap in Hw, Hh.
    rewrite Forall_forall in Hw, Hh. apply Forall_forall. intros i Hi.
    split; [by apply Hw|by apply Hh].
  - apply (min_of_attained (width img) (width <$> rest)).
  - apply (min_of_attained (height img) (height <$> rest)).
Qed.

(** C1: for every non-empty batch of analysed images the slide width and
    height are the per-axis minima of the images' widths and heights: no
    larger than any image's, and attained by some image.  Every call
    [convert] makes to the exporter carries that canvas of the batch it
    passes.  For 1920x1080 and 1280x720 the canvas is 1280x720. *)
Theorem C1_canvas_is_per_axis_minimum :
  (forall img rest,
      Forall (λ i, height i <> 0) (img :: rest) ->
      result (slide_size (Some <$> img :: rest))
        = Return (canvas_of (img :: rest)))
  /\ (forall img rest,
        Forall (λ i, (canvas_of (img :: rest)).1 <= width i
                     /\ (canvas_of (img :: rest)).2 <= height i) (img :: rest)
        /\ (canvas_of (img :: rest)).1 ∈ width <$> img :: rest
        /\ (canvas_of (img :: rest)).2 ∈ height <$> img :: rest)
  /\ (forall w completed images output extractor inpaint extract_styles a,
        a ∈ exports (trace (convert w completed images output extractor
                              inpaint extract_styles)) ->
        exists img rest,
          editable_images a = Some <$> img :: rest
          /\ (slide_width_pixels a, slide_height_pixels a)
             = canvas_of (img :: rest))
  /\ result (slide_size [Some (Demo.img 1920 1080 "a");
                         Some (Demo.img 1280 720 "b")])
     = Return (1280, 720).
Proof.
  split; [|split; [|split]].
  - intros img rest Hall. by rewrite (slide_size_spec _ Hall).
  - apply canvas_of_is_minimum.
  - intros w completed images output extractor inpaint extract_styles a Ha.
    destruct (convert_export_inv _ _ _ _ _ _ _ _ Ha)
      as (img & rest & p & Himgs & _ & Hcanvas & _).
    by exists img, rest.
  - by vm_compute.
Qed.

Lemma C1_canvas_is_per_axis_minimum_witness :
  result (slide_size (Some <$> [Demo.img 1920 1080 "deck";
                                Demo.img 1280 720 "wide";
                                Demo.img 1600 900 "mid"]))
  = Return (1280, 720).
Proof.
  refine (eq_trans
            (proj1 C1_canvas_is_per_axis_minimum
               (Demo.img 1920 1080 "deck")
               [Demo.img 1280 720 "wide"; Demo.img 1600 900 "mid"] _) _).
  - repeat constructor; simpl; lia.
  - reflexivity.
Defined.

(** C7, as stated, fails: when no image is collected, [convert] stops
    before the analysis and never calls the exporter, so no document is
    produced, with the default canvas or any other. *)
Lemma C7_counterexample :
  result (collect_image_paths (Demo.world None) ["notes.txt"; "empty"])
    = Return []
  /\ ~ exported_with_canvas
         (trace (convert (Demo.world None) [] ["notes.txt"; "empty"]
                   "new.pptx" "hybrid" "hybrid" true))
         1920 1080.
Proof.
  split; [by vm_compute|].
  intros (a & Ha & _).
  vm_compute in Ha. by apply elem_of_nil in Ha.
Qed.

(** C7, amended: the slide-size computation gives 1920x1080 for an empty
    batch, but [convert] never gets there with one: when no image is
    collected it prints "no valid images" and returns without calling the
    exporter, and every batch it does export is non-empty. *)
Theorem C7_empty_batch_is_not_exported (w : World) (completed : list nat)
    (images : list string) (output extractor inpaint : string)
    (extract_styles : bool) :
  slide_size [] = ([], Return (1920, 1080))
  /\ (result (collect_image_paths w images) = Return [] ->
      trace (convert w completed images output extractor inpaint
               extract_styles)
        = Rprint MsgBanner :: flat_map (warnings_of_arg w) images
            ++ [Rprint MsgNoValidImages]
      /\ exports (trace (convert w completed images output extractor inpaint
                           extract_styles)) = []
      /\ result (convert w completed images output extractor inpaint
                   extract_styles) = Return tt)
  /\ (forall a,
        a ∈ exports (trace (convert w completed images output extractor
                              inpaint extract_styles)) ->
        editable_images a <> []).
Proof.
  split; [done|]. split.
  - rewrite collect_image_paths_eq. simpl. intros [= Hnone].
    destruct (convert_trace w completed images output extractor inpaint
                extract_styles) as (t_cfg & cfg & _ & _ & Ht & Hr).
    destruct (convert_exports w completed images output extractor inpaint
                extract_styles) as (t_cfg' & cfg' & _ & He).
    rewrite Hnone in Ht, He. done.
  - intros a Ha.
    destruct (convert_export_inv _ _ _ _ _ _ _ _ Ha)
      as (img & rest & p & -> & _).
    done.
Qed.

Lemma C7_empty_batch_is_not_exported_witness :
  exports (trace (convert (Demo.world None) [] ["notes.txt"; "empty"]
                    "new.pptx" "hybrid" "hybrid" true)) = [].
Proof.
  apply (C7_empty_batch_is_not_exported (Demo.world None) []
           ["notes.txt"; "empty"] "new.pptx" "hybrid" "hybrid" true).
  by vm_compute.
Defined.

(* ===================================================================== *)
(** * The claim about the output path *)
(* ===================================================================== *)

Lemma substring_whole (s : string) : substring 0 (String.length s) s = s.
Proof. induction s as [|c s IH]; simpl; [done|by f_equal]. Qed.

Lemma substring_split (s : string) (n : nat) :
  (n <= String.length s)%nat ->
  substring 0 n s +:+ substring n (String.length s - n) s = s.
Proof.
  revert n. induction s as [|c s IH]; intros [|n] Hn; simpl in *;
    try done; try lia.
  - change (String c (substring 0 (String.length s) s) = String c s).
    f_equal. apply substring_whole.
  - change (String c (substring 0 n s +:+
                      substring n (String.length s - n) s) = String c s).
    f_equal. apply IH. lia.
Qed.

(** A name is its stem followed by its suffix. *)
Lemma stem_suffix (p : Path) : stem p +:+ suffix p = name p.
Proof.
  unfold stem, suffix.
  destruct (has_suffix (name p)) eqn:Hs.
  - unfold str_upto, str_from. apply substring_split.
    unfold has_suffix, slen in Hs.
    apply andb_prop in Hs as [H0 H1].
    apply Z.ltb_lt in H0, H1. lia.
  - generalize (name p) as s. intros s.
    induction s as [|c s IH]; [done|].
    change (String c (s +:+ "") = String c s). by f_equal.
Qed.

(** C10: when the requested output path exists (and names a file),
    [convert] writes to the path whose name is the stem, then ["_1"], then
    the suffix, in the same directory.  The rename happens once and the
    renamed path is not looked up: the exporter is called with it whether
    or not it exists, so an existing ["_1"] file is overwritten. *)
Theorem C10_existing_output_renamed_once (w : World) (completed : list nat)
    (images : list string) (output extractor inpaint : string)
    (extract_styles : bool) :
  exists_ w (path_of output) = true ->
  name (path_of output) <> "" ->
  choose_output_path w output =
    ([Rprint (MsgOutputExists (renamed (path_of output)))],
     Return (renamed (path_of output)))
  /\ name (renamed (path_of output)) =
     stem (path_of output) +:+ "_1" +:+ suffix (path_of output)
  /\ stem (path_of output) +:+ suffix (path_of output) = name (path_of output)
  /\ removelast (parts (renamed (path_of output)))
     = removelast (parts (path_of output))
  /\ (forall a,
        a ∈ exports (trace (convert w completed images output extractor
                              inpaint extract_styles)) ->
        output_file a = str (renamed (path_of output))).
Proof.
  intros Hex Hname.
  pose proof (choose_output_path_taken w output Hex Hname) as Hchoose.
  split; [done|]. split; [apply List.last_last|].
  split; [apply stem_suffix|]. split; [apply removelast_last|].
  intros a Ha.
  destruct (convert_export_inv _ _ _ _ _ _ _ _ Ha)
    as (img & rest & p & _ & _ & _ & Hp & ->).
  rewrite Hchoose in Hp. simpl in Hp. by injection Hp as <-.
Qed.

Lemma C10_existing_output_renamed_once_witness :
  exists_ (Demo.world None) (path_of "out.pptx") = true
  /\ exists_ (Demo.world None) (path_of "out_1.pptx") = true
  /\ output_file <$>
       exports (trace (convert (Demo.world None) [1; 0]%nat
                         ["deck.png"; "wide.png"] "out.pptx"
                         "hybrid" "baidu" true))
     = ["out_1.pptx"].
Proof.
  split; [by vm_compute|]. split; [by vm_compute|].
  assert (exists a,
             exports (trace (convert (Demo.world None) [1; 0]%nat
                               ["deck.png"; "wide.png"] "out.pptx"
                               "hybrid" "baidu" true)) = [a]) as [a Ha].
  { eexists. by vm_compute. }
  rewrite Ha. simpl. f_equal.
  refine (eq_trans
            (proj2 (proj2 (proj2 (proj2
               (C10_existing_output_renamed_once (Demo.world None)
                  [1; 0]%nat ["deck.png"; "wide.png"] "out.pptx"
                  "hybrid" "baidu" true _ _)))) a _) _).
  - by vm_compute.
  - by vm_compute.
  - rewrite Ha. by left.
  - by vm_compute.
Defined.

(* ===================================================================== *)
(** * The claim about failures of the analysis *)
(* ===================================================================== *)

(** C3: if the analysis of some image of the batch fails, then whatever
    the completion order, the first failure [convert] observes ends the
    run: the error is logged for that image, the conversion is reported as
    failed with that same error, the results collected so far are dropped
    and the exporter is never called, so no document is produced. *)
Theorem C3_first_failure_aborts (w : World) (completed : list nat)
    (images : list string) (output extractor inpaint : string)
    (extract_styles : bool) (paths : list string) (cfg : ServiceConfig) :
  result (collect_image_paths w images) = Return paths ->
  result (create_service_config w extractor inpaint) = Return cfg ->
  completed ≡ₚ seq 0 (length paths) ->
  (exists path e, path ∈ paths /\ make_image_editable w cfg path = Raise e) ->
  exists before i after path e pre,
    completed = before ++ i :: after
    /\ Forall (succeeds w cfg paths) before
    /\ paths !! i = Some path
    /\ make_image_editable w cfg path = Raise e
    /\ trace (convert w completed images output extractor inpaint
                extract_styles)
       = pre ++ Log ERROR (MsgFailedToAnalyze path e) :: failure_report e
    /\ exports (trace (convert w completed images output extractor inpaint
                         extract_styles)) = []
    /\ result (convert w completed images output extractor inpaint
                 extract_styles) = Return tt.
Proof.
  rewrite collect_image_paths_eq. simpl. intros [= Hpaths] Hcfg Hperm.
  intros (bad & e0 & Hbad & Hfail0).
  destruct (convert_trace w completed images output extractor inpaint
              extract_styles) as (t_cfg & cfg1 & Hcfg1 & _ & Htrace & Hres).
  destruct (convert_exports w completed images output extractor inpaint
              extract_styles) as (t_cfg2 & cfg2 & Hcfg2 & Hexp).
  rewrite Hcfg1 in Hcfg, Hcfg2. simpl in Hcfg.
  injection Hcfg as ->. injection Hcfg2 as _ <-.
  rewrite Hpaths in Htrace, Hexp.
  destruct (first_failure w cfg paths completed (completed_in_range _ _ Hperm))
    as [Hall | (before & i & after & path & e & -> & Hb & Hi & He)].
  - exfalso.
    apply list_elem_of_lookup_1 in Hbad as [i Hi].
    assert (i ∈ completed) as Hin.
    { rewrite Hperm. apply elem_of_seq. apply lookup_lt_Some in Hi. lia. }
    destruct (proj1 (Forall_forall _ _) Hall i Hin) as (p' & img & Hp' & Hm).
    rewrite Hi in Hp'. injection Hp' as <-. by rewrite Hm in Hfail0.
  - destruct paths as [|p0 paths']; [by rewrite lookup_nil in Hi|].
    unfold after_service in Htrace.
    rewrite (analyze_fail _ _ _ _ _ _ _ _ Hb Hi He) in Htrace, Hexp.
    simpl in Htrace, Hexp.
    exists before, i, after, path, e.
    exists (Rprint MsgBanner :: flat_map (warnings_of_arg w) images ++
            Rprint (MsgFound (S (length paths'))) :: Rprint MsgStep1 ::
            t_cfg ++ NewService cfg ::
            Submit 0 p0 :: submissions 1 paths' ++ slot_effects before).
    repeat (split; [done|]). split; [|done].
    rewrite Htrace.
    repeat (rewrite <- app_assoc || rewrite <- app_comm_cons). reflexivity.
Qed.

Lemma C3_first_failure_aborts_witness :
  exists pre,
    trace (convert (Demo.world None) [2; 0; 1]%nat
             ["deck.png"; "broken.png"; "wide.png"] "new.pptx"
             "hybrid" "hybrid" true)
    = pre ++ Log ERROR (MsgFailedToAnalyze "/home/u/broken.png"
                          (Failure "backend unreachable"))
          :: failure_report (Failure "backend unreachable")
    /\ exports (trace (convert (Demo.world None) [2; 0; 1]%nat
             ["deck.png"; "broken.png"; "wide.png"] "new.pptx"
             "hybrid" "hybrid" true)) = [].
Proof.
  destruct (C3_first_failure_aborts (Demo.world None) [2; 0; 1]%nat
              ["deck.png"; "broken.png"; "wide.png"] "new.pptx"
              "hybrid" "hybrid" true
              ["/home/u/deck.png"; "/home/u/broken.png"; "/home/u/wide.png"]
              {| use_hybrid_extractor := true; use_hybrid_inpaint := true;
                 max_depth := 1; inpaint_registry := empty_registry |})
    as (before & i & after & path & e & pre & Horder & _ & Hi & He & Ht & Hx & _).
  - by vm_compute.
  - by vm_compute.
  - apply (Permutation_cons_app [0%nat; 1%nat] [] 2%nat). reflexivity.
  - exists "/home/u/broken.png", (Failure "backend unreachable").
    split; [|by vm_compute]. right. by left.
  - exists pre. split; [|exact Hx].
    assert (i = 1%nat) as ->.
    { destruct before as [|b0 [|b1 [|b2 before]]]; simplify_eq/=; [done|].
      by destruct before. }
    vm_compute in Hi. injection Hi as <-.
    vm_compute in He. injection He as <-.
    exact Ht.
Defined.

(* ===================================================================== *)
(** * The claim about the aspect ratio *)
(* ===================================================================== *)

Lemma ratio_warnings_ratio_log (idx : nat) (imgs : list EditableImage) :
  ratio_warnings (ratio_log idx imgs) = off_ratio_numbers idx imgs.
Proof.
  revert idx. induction imgs as [|img imgs IH]; intros idx; [done|].
  cbn [ratio_log off_ratio_numbers]. rewrite ratio_warnings_app, IH.
  by destruct (off_ratio (aspect img)).
Qed.

Lemma off_ratio_numbers_above (idx : nat) (imgs : list EditableImage) :
  Forall (λ n, (idx < n)%nat) (off_ratio_numbers idx imgs).
Proof.
  revert idx. induction imgs as [|img imgs IH]; intros idx; [constructor|].
  cbn [off_ratio_numbers]. apply Forall_app. split.
  - destruct (off_ratio (aspect img)); repeat constructor. lia.
  - eapply Forall_impl; [apply IH|]. simpl. lia.
Qed.

(** Image number [idx + i + 1] is warned about once if image [i] is off
    ratio and not at all otherwise. *)
Lemma off_ratio_numbers_count (imgs : list EditableImage) (idx i : nat)
    (img : EditableImage) :
  imgs !! i = Some img ->
  count_occ Nat.eq_dec (off_ratio_numbers idx imgs) (idx + i + 1)%nat
  = if off_ratio (aspect img) then 1%nat else 0%nat.
Proof.
  revert idx i. induction imgs as [|img0 imgs IH]; intros idx i Hi; [done|].
  cbn [off_ratio_numbers]. rewrite count_occ_app.
  destruct i as [|i]; simpl in Hi.
  - injection Hi as ->.
    rewrite (proj1 (count_occ_not_In Nat.eq_dec
                      (off_ratio_numbers (S idx) imgs) (idx + 0 + 1)%nat)).
    + destruct (off_ratio (aspect img)); simpl; [|done].
      destruct (Nat.eq_dec _ _); [done|lia].
    + intros Hin. apply list_elem_of_In in Hin.
      pose proof (off_ratio_numbers_above (S idx) imgs) as Habove.
      rewrite Forall_forall in Habove. specialize (Habove _ Hin). lia.
  - replace (idx + S i + 1)%nat with (S idx + i + 1)%nat by lia.
    rewrite (IH _ _ Hi).
    destruct (off_ratio (aspect img0)); simpl; [|done].
    destruct (Nat.eq_dec _ _); [lia|done].
Qed.

Lemma ratio_warnings_failure_report (e : exn) :
  ratio_warnings (failure_report e) = [].
Proof. reflexivity. Qed.

(** Ratio warnings only come from the slide-size step. *)
Lemma convert_ratio_warnings (w : World) (completed : list nat)
    (images : list string) (output extractor inpaint : string)
    (extract_styles : bool) :
  exists t_cfg cfg,
    create_service_config w extractor inpaint = (t_cfg, Return cfg)
    /\ ratio_warnings (trace (convert w completed images output extractor
                                inpaint extract_styles)) =
       match flat_map (images_of_arg w) images with
       | [] => []
       | paths =>
           match result (analyze w cfg paths completed) with
           | Return imgs => ratio_warnings (trace (slide_size imgs))
           | Raise _ => []
           end
       end.
Proof.
  destruct (convert_trace w completed images output extractor inpaint
              extract_styles) as (t_cfg & cfg & Hcfg & Hstage & -> & _).
  exists t_cfg, cfg. split; [done|].
  change (ratio_warnings (Rprint MsgBanner :: ?l)) with (ratio_warnings l).
  rewrite ratio_warnings_app,
    (ratio_warnings_from_stage StCollect _ ltac:(done) (collect_stage w images)).
  destruct (flat_map (images_of_arg w) images) as [|p paths]; [done|].
  cbv zeta. rewrite app_nil_l.
  change (ratio_warnings (Rprint ?a :: Rprint ?b :: ?l))
    with (ratio_warnings l).
  rewrite ratio_warnings_app,
    (ratio_warnings_from_stage StConfig _ ltac:(done) Hstage).
  rewrite app_nil_l.
  change (ratio_warnings (NewService ?c :: ?l)) with (ratio_warnings l).
  unfold after_service.
  rewrite ratio_warnings_app,
    (ratio_warnings_from_stage StAnalysis _ ltac:(done)
       (analyze_stage _ _ _ _)).
  destruct (result (analyze w cfg (p :: paths) completed)) as [imgs|e];
    [|done].
  rewrite ratio_warnings_app, generate_pptx_ratio_warnings. simpl.
  destruct (result (generate_pptx w imgs output extract_styles));
    by rewrite ?ratio_warnings_failure_report, app_nil_r.
Qed.

Lemma choose_output_path_returns (w : World) (output : string) :
  (exists_ w (path_of output) = true -> name (path_of output) <> "") ->
  exists p, result (choose_output_path w output) = Return p.
Proof.
  intros Hname. destruct (exists_ w (path_of output)) eqn:Hex.
  - rewrite (choose_output_path_taken w output Hex (Hname eq_refl)).
    by eexists.
  - rewrite (choose_output_path_fresh w output Hex). by eexists.
Qed.

(** When every analysis succeeds, the batch is analysed in input order. *)
Lemma analyze_all_ok (w : World) (cfg : ServiceConfig) (paths : list string)
    (imgs : list EditableImage) (completed : list nat) :
  completed ≡ₚ seq 0 (length paths) ->
  Forall2 (λ path img, make_image_editable w cfg path = Return img)
    paths imgs ->
  result (analyze w cfg paths completed) = Return (Some <$> imgs).
Proof.
  intros Hperm Hall.
  assert (Forall (succeeds w cfg paths) completed) as Hsucc.
  { apply Forall_forall. intros i Hi.
    rewrite Hperm in Hi. apply elem_of_seq in Hi.
    destruct (lookup_lt_is_Some_2 paths i) as [path Hp]; [lia|].
    destruct (Forall2_lookup_l _ _ _ _ _ Hall Hp) as (img & _ & Hm).
    by exists path, img. }
  rewrite (analyze_ok _ _ _ _ Hperm Hsucc). simpl. f_equal.
  clear Hperm Hsucc. induction Hall as [|path img paths imgs Hm _ IH]; [done|].
  rewrite !fmap_cons, IH. unfold analysis_of. by rewrite Hm.
Qed.

(** C6: when every image of the batch is analysed, each image whose
    aspect ratio is more than 2% away from 16:9 (as [convert] computes it)
    is warned about exactly once, under its 1-based number, the others
    are not warned about, and the run goes on to call the exporter once
    with the whole batch and ends without an exception.  4:3 images are
    off ratio, 16:9 images are not. *)
Theorem C6_ratio_warning_does_not_block (w : World) (completed : list nat)
    (images : list string) (output extractor inpaint : string)
    (extract_styles : bool) (paths : list string) (cfg : ServiceConfig)
    (imgs : list EditableImage) :
  result (collect_image_paths w images) = Return paths ->
  result (create_service_config w extractor inpaint) = Return cfg ->
  completed ≡ₚ seq 0 (length paths) ->
  Forall2 (λ path img, make_image_editable w cfg path = Return img)
    paths imgs ->
  imgs <> [] ->
  Forall pixel_dims imgs ->
  (exists_ w (path_of output) = true -> name (path_of output) <> "") ->
  let run := convert w completed images output extractor inpaint
               extract_styles in
  ratio_warnings (trace run) = off_ratio_numbers 0 imgs
  /\ (forall i img,
        imgs !! i = Some img ->
        count_occ Nat.eq_dec (ratio_warnings (trace run)) (S i)
        = if off_ratio (aspect img) then 1%nat else 0%nat)
  /\ (exists a, exports (trace run) = [a]
                /\ editable_images a = Some <$> imgs)
  /\ result run = Return tt
  /\ off_ratio (aspect (Demo.img 4 3 "")) = true
  /\ off_ratio (aspect (Demo.img 1024 768 "")) = true
  /\ off_ratio (aspect (Demo.img 16 9 "")) = false
  /\ off_ratio (aspect (Demo.img 1920 1080 "")) = false.
Proof.
  rewrite collect_image_paths_eq. simpl.
  intros [= Hpaths] Hcfg Hperm Hall Hne Hdims Hname.
  assert (Forall (λ img, height img <> 0) imgs) as Hheights.
  { eapply Forall_impl; [exact Hdims|]. intros img [_ Hh]. simpl. lia. }
  pose proof (analyze_all_ok _ _ _ _ _ Hperm Hall) as Han.
  destruct (convert_ratio_warnings w completed images output extractor inpaint
              extract_styles) as (t1 & cfg1 & Hcfg1 & Hwarn).
  destruct (convert_exports w completed images output extractor inpaint
              extract_styles) as (t2 & cfg2 & Hcfg2 & Hexp).
  destruct (convert_trace w completed images output extractor inpaint
              extract_styles) as (_ & _ & _ & _ & _ & Hres).
  rewrite Hcfg1 in Hcfg, Hcfg2. simpl in Hcfg.
  injection Hcfg as ->. injection Hcfg2 as _ <-.
  rewrite Hpaths in Hwarn, Hexp.
  destruct paths as [|p0 paths'].
  { apply Forall2_nil_inv_l in Hall. done. }
  rewrite Han in Hwarn, Hexp.
  rewrite (slide_size_spec _ Hheights) in Hwarn. simpl in Hwarn.
  rewrite ratio_warnings_ratio_log in Hwarn.
  split; [done|]. split.
  { intros i img Hi. rewrite Hwarn.
    replace (S i) with (0 + i + 1)%nat by lia.
    apply (off_ratio_numbers_count imgs 0 i img Hi). }
  split.
  { pose proof (generate_pptx_exports w (Some <$> imgs) output extract_styles)
      as Hgen.
    rewrite (slide_size_spec _ Hheights) in Hgen. simpl in Hgen.
    destruct (canvas_of imgs) as [sw sh].
    destruct (choose_output_path_returns w output Hname) as [p Hp].
    rewrite Hp in Hgen. destruct Hgen as [x Hgen].
    eexists. split; [by rewrite Hexp, Hgen|done]. }
  split; [done|]. by vm_compute.
Qed.

Lemma C6_ratio_warning_does_not_block_witness :
  ratio_warnings
    (trace (convert (Demo.world None) [1; 0; 2]%nat
              ["deck.png"; "old.PNG"; "wide.png"] "new.pptx"
              "hybrid" "generative" false))
  = [2%nat]
  /\ exists a,
       exports
         (trace (convert (Demo.world None) [1; 0; 2]%nat
                   ["deck.png"; "old.PNG"; "wide.png"] "new.pptx"
                   "hybrid" "generative" false)) = [a].
Proof.
  destruct (C6_ratio_warning_does_not_block (Demo.world None) [1; 0; 2]%nat
              ["deck.png"; "old.PNG"; "wide.png"] "new.pptx"
              "hybrid" "generative" false
              ["/home/u/deck.png"; "/home/u/old.PNG"; "/home/u/wide.png"]
              {| use_hybrid_extractor := true; use_hybrid_inpaint := false;
                 max_depth := 1;
                 inpaint_registry :=
                   register_default GenerativeEditProvider empty_registry |}
              [Demo.img 1920 1080 "deck"; Demo.img 1024 768 "old";
               Demo.img 1280 720 "wide"])
    as (Hwarn & _ & (a & Ha & _) & _).
  - by vm_compute.
  - by vm_compute.
  - apply (Permutation_cons_app [0%nat] [2%nat] 1%nat). reflexivity.
  - repeat constructor.
  - done.
  - repeat constructor; simpl; lia.
  - by vm_compute.
  - split; [|by exists a].
    rewrite Hwarn. by vm_compute.
Defined.

(* ===================================================================== *)
(** * The claim about the immutability of the configuration *)
(* ===================================================================== *)

Lemma split_after (A B pre post : list effect) (x y : effect) :
  A ++ x :: B = pre ++ y :: post ->
  y ∉ A ->
  exists mid, x :: B = mid ++ y :: post.
Proof.
  revert pre. induction A as [|a A IH]; intros pre Heq Hy.
  - by exists pre.
  - destruct pre as [|a' pre]; simpl in Heq.
    + injection Heq as -> _. exfalso. apply Hy. by left.
    + injection Heq as _ Heq. apply (IH pre Heq).
      intros Hin. apply Hy. by right.
Qed.

Lemma from_stage_no_service (s : stage) (t : list effect) (cfg : ServiceConfig) :
  s <> StCli -> from_stage s t -> NewService cfg ∉ t.
Proof.
  intros Hs Ht Hin. unfold from_stage in Ht. rewrite Forall_forall in Ht.
  specialize (Ht _ Hin). simpl in Ht. congruence.
Qed.

Lemma after_service_attr_writes (w : World) (cfg : ServiceConfig)
    (paths : list string) (completed : list nat) (output : string)
    (extract_styles : bool) :
  attr_writes (after_service w cfg paths completed output extract_styles) = [].
Proof.
  unfold after_service.
  rewrite attr_writes_app,
    (attr_writes_from_stage StAnalysis _ ltac:(done) (analyze_stage _ _ _ _)).
  destruct (result (analyze w cfg paths completed)) as [imgs|e]; [|done].
  rewrite attr_writes_app, generate_pptx_attr_writes.
  by destruct (result (generate_pptx w imgs output extract_styles)).
Qed.

(** C4, amended: the configuration is assigned at most once after
    [from_defaults] has built it, namely its [inpaint_registry] field, by
    [create_service_config] and only for an inpaint method other than
    ["hybrid"]; once the service has been created from it, no field is
    assigned for the rest of the run, and in particular none while the
    batch is analysed. *)
Theorem C4_config_fixed_once_service_exists (w : World) (completed : list nat)
    (images : list string) (output extractor inpaint : string)
    (extract_styles : bool) :
  attr_writes (trace (create_service_config w extractor inpaint))
    = (if String.eqb inpaint "hybrid" then [] else ["inpaint_registry"])
  /\ never_assigned_in_service
       (trace (convert w completed images output extractor inpaint
                 extract_styles))
  /\ (forall cfg paths,
        attr_writes (trace (analyze w cfg paths completed)) = []).
Proof.
  split; [apply create_service_config_attr_writes|]. split.
  - intros pre cfg post Heq.
    destruct (convert_trace w completed images output extractor inpaint
                extract_styles) as (t_cfg & cfg0 & _ & Hstage & Ht & _).
    rewrite Ht in Heq. clear Ht.
    pose proof (from_stage_no_service StCollect _ cfg ltac:(done)
                  (collect_stage w images)) as Hcollect.
    pose proof (from_stage_no_service StConfig _ cfg ltac:(done) Hstage)
      as Hconfig.
    destruct (flat_map (images_of_arg w) images) as [|p paths].
    + exfalso.
      assert (NewService cfg ∈ Rprint MsgBanner ::
                flat_map (warnings_of_arg w) images ++ [Rprint MsgNoValidImages])
        as Hin.
      { rewrite Heq. apply elem_of_app. right. by left. }
      apply elem_of_cons in Hin as [Hin|Hin]; [done|].
      apply elem_of_app in Hin as [Hin|Hin]; [done|].
      by apply list_elem_of_singleton in Hin.
    + cbv zeta in Heq.
      destruct (split_after
                  (Rprint MsgBanner :: flat_map (warnings_of_arg w) images ++
                   Rprint (MsgFound (length (p :: paths))) ::
                   Rprint MsgStep1 :: t_cfg)
                  (after_service w cfg0 (p :: paths) completed output
                     extract_styles)
                  pre post (NewService cfg0) (NewService cfg))
        as [mid Hmid].
      { rewrite <- Heq.
        repeat (rewrite <- app_assoc || rewrite <- app_comm_cons).
        reflexivity. }
      { intros Hin.
        apply elem_of_cons in Hin as [Hin|Hin]; [done|].
        apply elem_of_app in Hin as [Hin|Hin]; [done|].
        apply elem_of_cons in Hin as [Hin|Hin]; [done|].
        apply elem_of_cons in Hin as [Hin|Hin]; [done|].
        done. }
      assert (attr_writes (mid ++ NewService cfg :: post) = []) as Hnone.
      { rewrite <- Hmid. apply after_service_attr_writes. }
      rewrite attr_writes_app in Hnone.
      by apply app_eq_nil in Hnone as [_ Hnone].
  - intros cfg paths.
    apply (attr_writes_from_stage StAnalysis); [done|apply analyze_stage].
Qed.

(* ===================================================================== *)
(** * Further properties of [convert] *)
(* ===================================================================== *)

(** Steps 3 and 4 as one equation, given what the text-extractor step
    returned. *)
Lemma generate_pptx_eq (w : World) (imgs : list (option EditableImage))
    (output : string) (extract_styles : bool) (t : list effect)
    (x : option TextAttributeExtractor) :
  make_text_extractor w extract_styles = (t, Return x) ->
  generate_pptx w imgs output extract_styles =
  (t ++ Rprint MsgStep3 :: trace (slide_size imgs) ++
     match result (slide_size imgs) with
     | Return (sw, sh) =>
         trace (choose_output_path w output) ++
         match result (choose_output_path w output) with
         | Return p =>
             Export (export_args imgs p sw sh x) ::
             match create_editable_pptx_with_recursive_analysis w
                     (export_args imgs p sw sh x) with
             | Return _ => [Rprint (MsgSuccess p)]
             | Raise _ => []
             end
         | Raise _ => []
         end
     | Raise _ => []
     end,
   match result (slide_size imgs) with
   | Return (sw, sh) =>
       match result (choose_output_path w output) with
       | Return p =>
           match create_editable_pptx_with_recursive_analysis w
                   (export_args imgs p sw sh x) with
           | Return _ => Return tt
           | Raise e => Raise e
           end
       | Raise e => Raise e
       end
   | Raise e => Raise e
   end).
Proof.
  intros Hx. unfold generate_pptx, rprint, call_export, lift, export_args.
  rewrite Hx, bind_Return, bind_emit. simpl.
  destruct (slide_size imgs) as [ts [[sw sh]|e]]; simpl;
    [|by rewrite !app_nil_r].
  destruct (choose_output_path w output) as [to [p|e]]; simpl;
    [|by rewrite !app_nil_r].
  by destruct (create_editable_pptx_with_recursive_analysis w _) as [[]|e'].
Qed.

Lemma exports_generate (w : World) (imgs : list (option EditableImage))
    (output : string) (extract_styles : bool) (t : list effect)
    (x : option TextAttributeExtractor) :
  make_text_extractor w extract_styles = (t, Return x) ->
  exports (trace (generate_pptx w imgs output extract_styles)) =
  match result (slide_size imgs), result (choose_output_path w output) with
  | Return (sw, sh), Return p => [export_args imgs p sw sh x]
  | _, _ => []
  end.
Proof.
  intros Hx. rewrite (generate_pptx_eq _ _ _ _ _ _ Hx). simpl.
  destruct (make_text_extractor_total w extract_styles) as (t' & x' & Hx' & Ht).
  rewrite Hx in Hx'. injection Hx' as <- <-.
  rewrite exports_app, (exports_from_stage StStyles) by done.
  change (exports (Rprint MsgStep3 :: ?l)) with (exports l).
  rewrite exports_app,
    (exports_from_stage StSize _ ltac:(done) (slide_size_stage imgs)).
  destruct (result (slide_size imgs)) as [[sw sh]|e]; [|done].
  rewrite exports_app,
    (exports_from_stage StOutput _ ltac:(done)
       (choose_output_path_stage w output)).
  destruct (result (choose_output_path w output)) as [p|e]; [|done].
  simpl. by destruct (create_editable_pptx_with_recursive_analysis w _).
Qed.

Lemma make_text_extractor_failing (w : World) (e : exn) :
  create_caption_model_extractor w = Raise e ->
  make_text_extractor w true =
  ([Rprint MsgStep2Extract; Log WARNING (MsgFailedTextExtractor e)],
   Return None).
Proof. intros He. unfold make_text_extractor, lift. by rewrite He. Qed.

Lemma make_text_extractor_skipped (w : World) :
  make_text_extractor w false = ([Rprint MsgStep2Skip], Return None).
Proof. reflexivity. Qed.

(** When the text-style extractor cannot be created, [convert] logs a
    warning and goes on: it hands the exporter exactly what it would have
    handed it with style extraction switched off, with no extractor. *)
Theorem styles_failure_degrades_to_no_styles (w : World)
    (completed : list nat) (images : list string)
    (output extractor inpaint : string) (e : exn) :
  create_caption_model_extractor w = Raise e ->
  exports (trace (convert w completed images output extractor inpaint true))
  = exports (trace (convert w completed images output extractor inpaint false))
  /\ Forall (λ a, text_attribute_extractor a = None)
       (exports (trace (convert w completed images output extractor inpaint
                          true)))
  /\ trace (make_text_extractor w true)
     = [Rprint MsgStep2Extract; Log WARNING (MsgFailedTextExtractor e)].
Proof.
  intros He.
  destruct (convert_exports w completed images output extractor inpaint true)
    as (t1 & cfg1 & Hcfg1 & ->).
  destruct (convert_exports w completed images output extractor inpaint false)
    as (t2 & cfg2 & Hcfg2 & ->).
  rewrite Hcfg1 in Hcfg2. injection Hcfg2 as _ <-.
  rewrite (make_text_extractor_failing w e He). split; [|split; [|done]].
  - destruct (flat_map (images_of_arg w) images) as [|p paths]; [done|].
    destruct (result (analyze w cfg1 (p :: paths) completed)) as [imgs|e'];
      [|done].
    by rewrite (exports_generate _ _ _ _ _ _ (make_text_extractor_failing w e He)),
      (exports_generate _ _ _ _ _ _ (make_text_extractor_skipped w)).
  - destruct (flat_map (images_of_arg w) images) as [|p paths]; [constructor|].
    destruct (result (analyze w cfg1 (p :: paths) completed)) as [imgs|e'];
      [|constructor].
    rewrite (exports_generate _ _ _ _ _ _ (make_text_extractor_failing w e He)).
    destruct (result (slide_size imgs)) as [[sw sh]|e']; [|constructor].
    destruct (result (choose_output_path w output)); by repeat constructor.
Qed.

Lemma styles_failure_degrades_to_no_styles_witness :
  text_attribute_extractor <$>
    exports (trace (convert
                      (with_styles (Raise (Failure "no caption model"))
                         (Demo.world None))
                      [0; 1]%nat ["deck.png"; "wide.png"] "new.pptx"
                      "hybrid" "hybrid" true))
  = [None].
Proof.
  assert (exists a,
             exports (trace (convert
                      (with_styles (Raise (Failure "no caption model"))
                         (Demo.world None))
                      [0; 1]%nat ["deck.png"; "wide.png"] "new.pptx"
                      "hybrid" "hybrid" true)) = [a]) as [a Ha].
  { eexists. by vm_compute. }
  pose proof (proj1 (proj2
    (styles_failure_degrades_to_no_styles
       (with_styles (Raise (Failure "no caption model")) (Demo.world None))
       [0; 1]%nat ["deck.png"; "wide.png"] "new.pptx" "hybrid" "hybrid"
       (Failure "no caption model") eq_refl))) as Hall.
  rewrite Ha in Hall |- *. inversion_clear Hall as [|? ? Hnone _].
  simpl. by rewrite Hnone.
Defined.

Lemma last_failure_report (t : list effect) (e : exn) :
  last (t ++ failure_report e) = Some (Log ERROR (MsgConversionFailed e)).
Proof. unfold failure_report. by rewrite last_app_cons. Qed.


Lemma convert_last (w : World) (completed : list nat) (images : list string)
    (output extractor inpaint : string) (extract_styles : bool) :
  exists cfg,
    result (create_service_config w extractor inpaint) = Return cfg
    /\ final_report (trace (convert w completed images output extractor
                              inpaint extract_styles)) =
       match flat_map (images_of_arg w) images with
       | [] => Some (Rprint MsgNoValidImages)
       | paths =>
           match last (after_service w cfg paths completed output
                         extract_styles) with
           | Some ev => Some ev
           | None => Some (NewService cfg)
           end
       end.
Proof.
  destruct (convert_trace w completed images output extractor inpaint
              extract_styles) as (t_cfg & cfg & Hcfg & _ & -> & _).
  exists cfg. split; [by rewrite Hcfg|]. unfold final_report.
  destruct (flat_map (images_of_arg w) images) as [|p paths].
  - by rewrite app_comm_cons, last_snoc.
  - cbv zeta.
    rewrite app_comm_cons, last_app_cons.
    rewrite (app_comm_cons _ _ (Rprint MsgStep1)),
      (app_comm_cons _ _ (Rprint (MsgFound _))), last_app_cons.
    apply last_cons.
Qed.


Lemma after_service_failure (w : World) (cfg : ServiceConfig)
    (paths : list string) (completed : list nat) (output : string)
    (extract_styles : bool) (imgs : list (option EditableImage)) (e : exn) :
  result (analyze w cfg paths completed) = Return imgs ->
  result (generate_pptx w imgs output extract_styles) = Raise e ->
  last (after_service w cfg paths completed output extract_styles)
  = Some (Log ERROR (MsgConversionFailed e)).
Proof.
  intros Han Hgen. unfold after_service. rewrite Han, Hgen.
  rewrite (assoc_L (++)). apply last_failure_report.
Qed.

Lemma size_loop_zero_height (imgs : list EditableImage) (idx : nat)
    (mw mh : pynum) :
  Exists (λ img, height img = 0) imgs ->
  result (size_loop idx (Some <$> imgs) mw mh) = Raise ZeroDivisionError.
Proof.
  revert idx mw mh. induction imgs as [|img imgs IH]; intros idx mw mh Hex.
  - by apply Exists_nil in Hex.
  - destruct (decide (height img = 0)) as [Hz|Hnz].
    + rewrite fmap_cons. cbn [size_loop]. unfold truediv. by rewrite Hz.
    + rewrite fmap_cons, (size_loop_step _ _ _ _ _ Hnz). simpl.
      apply IH. by apply Exists_cons in Hex as [?|?].
Qed.

Lemma slide_size_zero_height (imgs : list EditableImage) :
  Exists (λ img, height img = 0) imgs ->
  result (slide_size (Some <$> imgs)) = Raise ZeroDivisionError.
Proof.
  intros Hex. unfold slide_size. rewrite result_bind.
  by rewrite (size_loop_zero_height _ _ _ _ Hex).
Qed.

(** An analysed image of height 0 makes the aspect-ratio division raise:
    the run ends with the failure report for [ZeroDivisionError] and the
    exporter is not called, although every image was analysed. *)
Theorem zero_height_image_aborts (w : World) (completed : list nat)
    (images : list string) (output extractor inpaint : string)
    (extract_styles : bool) (paths : list string) (cfg : ServiceConfig)
    (imgs : list EditableImage) :
  result (collect_image_paths w images) = Return paths ->
  result (create_service_config w extractor inpaint) = Return cfg ->
  completed ≡ₚ seq 0 (length paths) ->
  Forall2 (λ path img, make_image_editable w cfg path = Return img)
    paths imgs ->
  Exists (λ img, height img = 0) imgs ->
  exports (trace (convert w completed images output extractor inpaint
                    extract_styles)) = []
  /\ final_report (trace (convert w completed images output extractor
                            inpaint extract_styles))
     = Some (Log ERROR (MsgConversionFailed ZeroDivisionError)).
Proof.
  rewrite collect_image_paths_eq. simpl.
  intros [= Hpaths] Hcfg Hperm Hall Hzero.
  pose proof (analyze_all_ok _ _ _ _ _ Hperm Hall) as Han.
  pose proof (slide_size_zero_height _ Hzero) as Hsize.
  destruct (convert_last w completed images output extractor inpaint
              extract_styles) as (cfg1 & Hcfg1 & ->).
  destruct (convert_exports w completed images output extractor inpaint
              extract_styles) as (t_cfg & cfg2 & Hcfg2 & ->).
  rewrite Hcfg2 in Hcfg, Hcfg1. simpl in Hcfg, Hcfg1.
  injection Hcfg as ->. injection Hcfg1 as <-.
  rewrite Hpaths.
  destruct paths as [|p0 paths'].
  { apply Forall2_nil_inv_l in Hall. subst imgs. by apply Exists_nil in Hzero. }
  rewrite Han.
  destruct (make_text_extractor_total w extract_styles) as (t & x & Hx & _).
  rewrite (exports_generate _ _ _ _ _ _ Hx), Hsize. split; [done|].
  rewrite (after_service_failure _ _ _ _ _ _ _ ZeroDivisionError Han); [done|].
  by rewrite (generate_pptx_eq _ _ _ _ _ _ Hx); simpl; rewrite Hsize.
Qed.

Lemma zero_height_image_aborts_witness :
  final_report
    (trace (convert
              (with_analysis (λ _ path, Return (Demo.img 800 0 path))
                 (Demo.world None))
              [0]%nat ["deck.png"] "new.pptx" "hybrid" "hybrid" false))
  = Some (Log ERROR (MsgConversionFailed ZeroDivisionError)).
Proof.
  apply (zero_height_image_aborts
           (with_analysis (λ _ path, Return (Demo.img 800 0 path))
              (Demo.world None))
           [0]%nat ["deck.png"] "new.pptx" "hybrid" "hybrid" false
           ["/home/u/deck.png"]
           {| use_hybrid_extractor := true; use_hybrid_inpaint := true;
              max_depth := 1; inpaint_registry := empty_registry |}
           [Demo.img 800 0 "/home/u/deck.png"]).
  - by vm_compute.
  - by vm_compute.
  - reflexivity.
  - by repeat constructor.
  - by left.
Defined.

Lemma choose_output_path_unnamed (w : World) (output : string) :
  exists_ w (path_of output) = true ->
  name (path_of output) = "" ->
  choose_output_path w output = ([], Raise ValueError).
Proof.
  intros Hex Hname. unfold choose_output_path, with_name.
  by rewrite Hex, Hname.
Qed.

(** When the requested output exists but has no file name (["."], ["/"],
    a directory given with dots only), the rename raises [ValueError]: the
    batch is analysed and sized first, and only then does the run end with
    the failure report, without a call to the exporter. *)
Theorem unnamed_output_fails_after_analysis (w : World)
    (completed : list nat) (images : list string)
    (output extractor inpaint : string) (extract_styles : bool)
    (paths : list string) (cfg : ServiceConfig) (imgs : list EditableImage) :
  result (collect_image_paths w images) = Return paths ->
  result (create_service_config w extractor inpaint) = Return cfg ->
  completed ≡ₚ seq 0 (length paths) ->
  Forall2 (λ path img, make_image_editable w cfg path = Return img)
    paths imgs ->
  imgs <> [] ->
  Forall (λ img, height img <> 0) imgs ->
  exists_ w (path_of output) = true ->
  name (path_of output) = "" ->
  result (analyze w cfg paths completed) = Return (Some <$> imgs)
  /\ result (slide_size (Some <$> imgs)) = Return (canvas_of imgs)
  /\ exports (trace (convert w completed images output extractor inpaint
                       extract_styles)) = []
  /\ final_report (trace (convert w completed images output extractor
                            inpaint extract_styles))
     = Some (Log ERROR (MsgConversionFailed ValueError)).
Proof.
  rewrite collect_image_paths_eq. simpl.
  intros [= Hpaths] Hcfg Hperm Hall Hne Hheights Hex Hname.
  pose proof (analyze_all_ok _ _ _ _ _ Hperm Hall) as Han.
  pose proof (slide_size_spec _ Hheights) as Hsize.
  pose proof (choose_output_path_unnamed w output Hex Hname) as Hout.
  split; [done|]. split; [by rewrite Hsize|].
  destruct (convert_last w completed images output extractor inpaint
              extract_styles) as (cfg1 & Hcfg1 & ->).
  destruct (convert_exports w completed images output extractor inpaint
              extract_styles) as (t_cfg & cfg2 & Hcfg2 & ->).
  rewrite Hcfg2 in Hcfg, Hcfg1. simpl in Hcfg, Hcfg1.
  injection Hcfg as ->. injection Hcfg1 as <-.
  rewrite Hpaths.
  destruct paths as [|p0 paths'].
  { apply Forall2_nil_inv_l in Hall. done. }
  rewrite Han.
  destruct (make_text_extractor_total w extract_styles) as (t & x & Hx & _).
  rewrite (exports_generate _ _ _ _ _ _ Hx), Hsize, Hout. simpl.
  destruct (canvas_of imgs) as [sw sh]. split; [done|].
  rewrite (after_service_failure _ _ _ _ _ _ _ ValueError Han); [done|].
  rewrite (generate_pptx_eq _ _ _ _ _ _ Hx); simpl.
  rewrite Hsize, Hout. simpl. by destruct (canvas_of imgs).
Qed.

Lemma unnamed_output_fails_after_analysis_witness :
  final_report
    (trace (convert (Demo.world None) [1; 0]%nat ["deck.png"; "wide.png"]
              "." "hybrid" "hybrid" false))
  = Some (Log ERROR (MsgConversionFailed ValueError)).
Proof.
  apply (unnamed_output_fails_after_analysis (Demo.world None) [1; 0]%nat
           ["deck.png"; "wide.png"] "." "hybrid" "hybrid" false
           ["/home/u/deck.png"; "/home/u/wide.png"]
           {| use_hybrid_extractor := true; use_hybrid_inpaint := true;
              max_depth := 1; inpaint_registry := empty_registry |}
           [Demo.img 1920 1080 "deck"; Demo.img 1280 720 "wide"]).
  - by vm_compute.
  - by vm_compute.
  - apply (Permutation_cons_app [0%nat] [] 1%nat). reflexivity.
  - by repeat constructor.
  - done.
  - repeat constructor; simpl; lia.
  - by vm_compute.
  - by vm_compute.
Defined.

(* ===================================================================== *)
(** * Further properties of [create_service_config] *)
(* ===================================================================== *)

(** Which registry the returned configuration carries: for ["hybrid"] it
    is the one [from_defaults] installed, untouched; for any method that
    is none of ["hybrid"], ["generative"], ["baidu"] it is replaced by an
    empty registry.  So the configuration has a default provider exactly
    for ["generative"], for ["baidu"], and for ["hybrid"] when
    [from_defaults] provided one. *)
Theorem registry_by_inpaint_method (w : World) (extractor inpaint : string) :
  exists t cfg,
    create_service_config w extractor inpaint = (t, Return cfg)
    /\ (inpaint = "hybrid" ->
        inpaint_registry cfg = default_inpaint_registry w true)
    /\ (inpaint <> "hybrid" -> inpaint <> "generative" ->
        inpaint <> "baidu" ->
        inpaint_registry cfg = empty_registry)
    /\ (is_Some (default_provider (inpaint_registry cfg)) <->
        inpaint = "generative" \/ inpaint = "baidu"
        \/ (inpaint = "hybrid"
            /\ is_Some (default_provider (default_inpaint_registry w true)))).
Proof.
  unfold create_service_config, build_inpaint_registry, from_defaults, log.
  destruct (String.eqb_spec inpaint "hybrid") as [->|Hh]; simpl.
  { eexists _, _. split; [reflexivity|]. split; [done|]. split; [done|].
    simpl. split; [by right; right|]. by intros [?|[?|[_ ?]]]. }
  destruct (String.eqb_spec inpaint "generative") as [->|Hg]; simpl.
  { eexists _, _. split; [reflexivity|]. split; [done|]. split; [done|].
    simpl. split; [by left|by eexists]. }
  destruct (String.eqb_spec inpaint "baidu") as [->|Hb]; simpl.
  { destruct (create_baidu_inpaint_provider w); simpl;
      eexists _, _; (split; [reflexivity|]); (split; [done|]);
      (split; [done|]); simpl; (split; [by right; left|by eexists]). }
  eexists _, _. split; [reflexivity|]. split; [done|]. split; [done|].
  simpl. split; [by intros [? [=]]|]. by intros [?|[?|[? _]]].
Qed.

(* ===================================================================== *)
(** * Further properties of [collect_image_paths] *)
(* ===================================================================== *)

Lemma append_cons (a : ascii) (s1 s2 : string) :
  String a s1 +:+ s2 = String a (s1 +:+ s2).
Proof. reflexivity. Qed.

Lemma length_append (s1 s2 : string) :
  String.length (s1 +:+ s2) = (String.length s1 + String.length s2)%nat.
Proof.
  induction s1 as [|a s1 IH]; [done|].
  rewrite append_cons. simpl. by rewrite IH.
Qed.

Lemma length_lower (s : string) : String.length (lower s) = String.length s.
Proof. induction s as [|a s IH]; simpl; [done|by rewrite IH]. Qed.

Lemma lower_ascii_dot (a : ascii) :
  Ascii.eqb (lower_ascii a) "." = Ascii.eqb a ".".
Proof. destruct a as [[] [] [] [] [] [] [] []]; reflexivity. Qed.

Lemma rfind_lower (s : string) : rfind "." (lower s) = rfind "." s.
Proof.
  induction s as [|a s IH]; simpl; [done|].
  by rewrite IH, lower_ascii_dot.
Qed.

Lemma rfind_append (c : ascii) (s1 s2 : string) :
  0 <= rfind c s2 -> rfind c (s1 +:+ s2) = slen s1 + rfind c s2.
Proof.
  intros Hr. induction s1 as [|a s1 IH].
  { change ("" +:+ s2) with s2. unfold slen. simpl. lia. }
  rewrite append_cons. cbn [rfind]. rewrite IH.
  destruct (Z.leb_spec 0 (slen s1 + rfind c s2)); unfold slen in *;
    simpl String.length; lia.
Qed.

Lemma substring_drop (s1 s2 : string) :
  substring (String.length s1) (String.length s2) (s1 +:+ s2) = s2.
Proof.
  induction s1 as [|a s1 IH]; [apply substring_whole|].
  by rewrite append_cons.
Qed.

Lemma substring_nonempty (s : string) (n : nat) :
  (0 < n <= String.length s)%nat -> substring 0 n s <> "".
Proof. destruct s, n; simpl; intros [? ?]; (lia || done). Qed.

Lemma image_extension_cases (ext : string) :
  ext ∈ image_extensions ->
  ext = ".png" \/ ext = ".jpg" \/ ext = ".jpeg" \/ ext = ".webp"
  \/ ext = ".bmp".
Proof.
  unfold image_extensions.
  rewrite !elem_of_union, !elem_of_singleton. tauto.
Qed.

(** An image extension, in any letter case, is a dot followed by at least
    one more character and no further dot. *)
Lemma image_extension_shape (ext : string) :
  lower ext ∈ image_extensions ->
  rfind "." ext = 0 /\ (2 <= String.length ext)%nat.
Proof.
  intros Hin. rewrite <- rfind_lower, <- (length_lower ext).
  destruct (image_extension_cases _ Hin) as [->|[->|[->|[->| ->]]]];
    split; (reflexivity || (simpl; lia)).
Qed.
